(** * CppEnns streams: a shallow embedding of [src/streams.h]

    The header defines a pull-based stream library: iterator classes that
    wrap one another ([StreamIterator], [EmptyIterator], [MapIterator],
    [FlatMapIterator], [TapIterator], [LimitIterator], [FilterIterator]) and
    a [Stream] facade with chaining and terminal member functions.

    Conventions of the embedding.
    - A member function is a function of the object's state that returns the
      value together with the state the object is left in (all member
      functions of the header are non-const).
    - The callables handed to the library may capture and update state of
      their own; that ambient state is the type [W], threaded through every
      call that can reach a callable.
    - A call ends in a value, in the escape of [Detail::Exception], or in
      behaviour the language leaves undefined (dereferencing a cursor outside
      its array, reading storage that holds no object).
    - [while] loops recurse on a fuel argument; "the call returns r" is
      stated as [eventually]: every large enough fuel gives r.
    - Elements are values: moving an element out of the source reads it (as
      for scalar elements or a source of const elements).  A transform or
      predicate receives its argument by value or const reference; the
      function of [tap] is handed the stage's local copy of the element as
      an lvalue and may assign to it ([ref_callable]).
    - Passing an iterator by value is passing its state.  The copy
      constructors the header writes out ([FilterIterator], [FlatMapIterator])
      are [copy]; they return the state they are given on every state the
      library reaches ([Filter_copy_consistent], [FlatMap_copy_consistent]).
    - Overflow of [int] wraps around; the state of the objects after an
      exception has escaped is not tracked. *)

From Stdlib Require Import Ascii String.
From Stdlib Require Import ZArith List Lia Bool.
Import ListNotations.
Local Open Scope Z_scope.

(** ** The C++ [int] *)

Definition int := Z.

(** Two's complement wrap-around of a 32 bit signed integer. *)
Definition wrap (z : Z) : int := (z + 2147483648) mod 4294967296 - 2147483648.

Definition in_int (z : Z) : Prop := -2147483648 <= z < 2147483648.

(** ** Outcomes and the call monad *)

Inductive result (W A : Type) : Type :=
| Ok (a : A) (w : W)   (* normal return, ambient state afterwards *)
| Throw                (* a Detail::Exception escapes *)
| Undefined            (* behaviour not defined by the language *)
| OutOfFuel.           (* the model's loop budget is used up *)

Arguments Ok {W A} a w.
Arguments Throw {W A}.
Arguments Undefined {W A}.
Arguments OutOfFuel {W A}.

Definition M (W A : Type) : Type := W -> result W A.

Definition ret {W A} (a : A) : M W A := fun w => Ok a w.

Definition bind {W A B} (m : M W A) (k : A -> M W B) : M W B :=
  fun w =>
    match m w with
    | Ok a w' => k a w'
    | Throw => Throw
    | Undefined => Undefined
    | OutOfFuel => OutOfFuel
    end.

Definition throw {W A} : M W A := fun _ => Throw.
Definition undefined {W A} : M W A := fun _ => Undefined.
Definition out_of_fuel {W A} : M W A := fun _ => OutOfFuel.

Notation "x <- c1 ;; c2" := (bind c1 (fun x => c2))
  (at level 61, c1 at next level, right associativity).
Notation "' pat <- c1 ;; c2" :=
  (bind c1 (fun x => match x with pat => c2 end))
  (at level 61, pat pattern, c1 at next level, right associativity).

(** A callable [TLam]/[TFunc]: a total function of its argument that may
    read and update the ambient state. *)
Definition callable (W A B : Type) : Type := A -> W -> B * W.

Definition call {W A B} (f : callable W A B) (x : A) : M W B :=
  fun w => let (y, w') := f x w in Ok y w'.

(** A callable without effect. *)
Definition pure_fn {W A B} (f : A -> B) : callable W A B := fun x w => (f x, w).

(** A callable invoked on an lvalue of the caller, as in [lambda(x)] with
    [x] a local variable: it returns the value [x] holds after the call
    (what the callable itself returns is not used). *)
Definition ref_callable (W A : Type) : Type := callable W A A.

(** The callable that takes its argument by value or const reference: the
    caller's variable keeps its value. *)
Definition by_value {W A B} (f : callable W A B) : ref_callable W A :=
  fun x w => (x, snd (f x w)).

(** "The call returns [r]": every large enough loop budget gives [r]. *)
Definition eventually {W A} (f : nat -> result W A) (r : result W A) : Prop :=
  exists N, forall n, (N <= n)%nat -> f n = r.

(** ** The iterator protocol

    The duck-typed protocol every [TIt]/[TStreamIt] template argument
    satisfies.  [next] carries the loop budget because [FilterIterator] and
    [FlatMapIterator] loop inside it. *)
Class Iterator (W S E : Type) : Type := Build_Iterator {
  hasNext : S -> bool * S;
  estimateRemaining : S -> int * S;
  next : nat -> S -> M W (E * S)
}.

(** ** namespace Detail *)

Module Detail.

(** [TypedStorage<T>]: room for one [T]; [None] while the room holds no
  object (only the [space] member of the union is active). *)
Definition TypedStorage (T : Type) : Type := option T.

(** [TypedStorage()] *)
Definition raw {T} : TypedStorage T := None.

(** [construct(x)]: placement new. *)
Definition construct {T} (x : T) (st : TypedStorage T) : TypedStorage T := Some x.

(** [get()] used to read the stored object. *)
Definition get {W T} (st : TypedStorage T) : M W T :=
  match st with
  | Some v => ret v
  | None => undefined
  end.

(** [get() = x]: assignment to the stored object. *)
Definition assign {W T} (x : T) (st : TypedStorage T) : M W (TypedStorage T) :=
  match st with
  | Some _ => ret (Some x)
  | None => undefined
  end.

End Detail.

(** ** Cursors into an array

  The [TIt] of a [StreamIterator]: a pointer or random-access iterator,
  modelled as an array and an offset into it.  Cursors that are compared
  or subtracted point into the same array, so only offsets matter. *)
Record Ptr (T : Type) : Type := { arr : list T; off : Z }.
Arguments arr {T} p.
Arguments off {T} p.

Definition ptr_neq {T} (p q : Ptr T) : bool := negb (off p =? off q).
Definition ptr_incr {T} (p : Ptr T) : Ptr T := {| arr := arr p; off := off p + 1 |}.
Definition ptr_diff {T} (p q : Ptr T) : Z := off p - off q.

Definition deref {W T} (p : Ptr T) : M W T :=
  if 0 <=? off p then
    match nth_error (arr p) (Z.to_nat (off p)) with
    | Some v => ret v
    | None => undefined
    end
  else undefined.

(** ** Stream: the facade owns one iterator by value *)

Record Stream (TIt : Type) : Type := { iterator : TIt }.
Arguments iterator {TIt} s.

(** ** StreamIterator *)

Module StreamIterator.
Section Def.
Context {W T : Type}.

Record t : Type := { current : Ptr T; end_ : Ptr T }.

Definition hasNext (s : t) : bool * t :=
  (ptr_neq (current s) (end_ s), s).

Definition estimateRemaining (s : t) : int * t :=
  (wrap (ptr_diff (end_ s) (current s)), s).

Definition next (n : nat) (s : t) : M W (T * t) :=
  x <- deref (current s) ;;
  ret (x, {| current := ptr_incr (current s); end_ := end_ s |}).
End Def.
Arguments t : clear implicits.

#[global] Instance iterator (W T : Type) : Iterator W (t T) T :=
  Build_Iterator W (t T) T hasNext estimateRemaining next.
End StreamIterator.

(** ** EmptyIterator *)

Module EmptyIterator.
(** The class has no data members. *)
Inductive t (T : Type) : Type := mk.
Arguments mk {T}.

Section Def.
Context {W T : Type}.

Definition hasNext (s : t T) : bool * t T := (false, s).

Definition estimateRemaining (s : t T) : int * t T := (0, s).

Definition next (n : nat) (s : t T) : M W (T * t T) := throw.
End Def.

#[global] Instance iterator (W T : Type) : Iterator W (t T) T :=
  Build_Iterator W (t T) T hasNext estimateRemaining next.
End EmptyIterator.

(** ** MapIterator *)

Module MapIterator.
Section Def.
Context {W TStreamIt A B : Type} `{Iterator W TStreamIt A}.

Record t : Type := { it : TStreamIt; lambda : callable W A B }.

Definition set_it (i : TStreamIt) (s : t) : t := {| it := i; lambda := lambda s |}.

Definition hasNext (s : t) : bool * t :=
  let (b, i) := hasNext (it s) in (b, set_it i s).

Definition estimateRemaining (s : t) : int * t :=
  let (r, i) := estimateRemaining (it s) in (r, set_it i s).

Definition next (n : nat) (s : t) : M W (B * t) :=
  '(x, i) <- next n (it s) ;;
  y <- call (lambda s) x ;;
  ret (y, set_it i s).
End Def.
Arguments t : clear implicits.

#[global] Instance iterator (W TStreamIt A B : Type) `{Iterator W TStreamIt A}
  : Iterator W (t W TStreamIt A B) B :=
  Build_Iterator W (t W TStreamIt A B) B hasNext estimateRemaining next.
End MapIterator.

(** ** FlatMapIterator *)

Module FlatMapIterator.
Section Def.
Context {W TStreamIt A TInnerIt B : Type}.
Context `{Iterator W TStreamIt A} `{Iterator W TInnerIt B}.

Record t : Type := {
  streamIt : TStreamIt;
  lambda : callable W A (Stream TInnerIt);
  innerIt : Detail.TypedStorage TInnerIt;
  hasValue : bool;
  hasInnerIt : bool
}.

Definition set_streamIt (o : TStreamIt) (s : t) : t :=
  {| streamIt := o; lambda := lambda s; innerIt := innerIt s;
     hasValue := hasValue s; hasInnerIt := hasInnerIt s |}.

Definition set_innerIt (c : Detail.TypedStorage TInnerIt) (s : t) : t :=
  {| streamIt := streamIt s; lambda := lambda s; innerIt := c;
     hasValue := hasValue s; hasInnerIt := hasInnerIt s |}.

Definition set_hasValue (b : bool) (s : t) : t :=
  {| streamIt := streamIt s; lambda := lambda s; innerIt := innerIt s;
     hasValue := b; hasInnerIt := hasInnerIt s |}.

Definition set_hasInnerIt (b : bool) (s : t) : t :=
  {| streamIt := streamIt s; lambda := lambda s; innerIt := innerIt s;
     hasValue := hasValue s; hasInnerIt := b |}.

(** The [while (streamIt.hasNext())] loop of [moveNext]. *)
Fixpoint moveNext_loop (n : nat) (s : t) : M W t :=
  match n with
  | O => out_of_fuel
  | S n' =>
    let (more, o1) := hasNext (streamIt s) in
    let s0 := set_streamIt o1 s in
    if more then
      '(x, o2) <- next n' o1 ;;
      st <- call (lambda s0) x ;;
      s1 <- (if hasInnerIt s0 then
               c <- Detail.assign (iterator st) (innerIt s0) ;;
               ret (set_innerIt c (set_streamIt o2 s0))
             else
               ret (set_hasInnerIt true
                      (set_innerIt (Detail.construct (iterator st) (innerIt s0))
                         (set_streamIt o2 s0)))) ;;
      i <- Detail.get (innerIt s1) ;;
      let (b, i') := hasNext i in
      let s2 := set_innerIt (Some i') s1 in
      if b then ret (set_hasValue true s2) else moveNext_loop n' s2
    else ret s0
  end.

Definition moveNext (n : nat) (s : t) : M W t :=
  let s0 := set_hasValue false s in
  if hasInnerIt s0 then
    i <- Detail.get (innerIt s0) ;;
    let (b, i') := hasNext i in
    let s1 := set_innerIt (Some i') s0 in
    if b then ret (set_hasValue true s1) else moveNext_loop n s1
  else moveNext_loop n s0.

(** [FlatMapIterator(TStreamIt i, TLam l)] *)
Definition new (n : nat) (i : TStreamIt) (l : callable W A (Stream TInnerIt)) : M W t :=
  moveNext n {| streamIt := i; lambda := l; innerIt := Detail.raw;
                hasValue := false; hasInnerIt := false |}.

(** [FlatMapIterator(const FlatMapIterator& x)] *)
Definition copy (x : t) : M W t :=
  if hasInnerIt x then
    i <- Detail.get (innerIt x) ;;
    ret {| streamIt := streamIt x; lambda := lambda x;
           innerIt := Detail.construct i Detail.raw;
           hasValue := hasValue x; hasInnerIt := hasInnerIt x |}
  else
    ret {| streamIt := streamIt x; lambda := lambda x; innerIt := Detail.raw;
           hasValue := hasValue x; hasInnerIt := hasInnerIt x |}.

Definition hasNext (s : t) : bool * t := (hasValue s, s).

Definition estimateRemaining (s : t) : int * t :=
  let (r, o) := estimateRemaining (streamIt s) in (r, set_streamIt o s).

Definition next (n : nat) (s : t) : M W (B * t) :=
  i <- Detail.get (innerIt s) ;;
  '(x, i') <- next n i ;;
  s' <- moveNext n (set_innerIt (Some i') s) ;;
  ret (x, s').
End Def.
Arguments t : clear implicits.

#[global] Instance iterator (W TStreamIt A TInnerIt B : Type)
  `{Iterator W TStreamIt A} `{Iterator W TInnerIt B}
  : Iterator W (t W TStreamIt A TInnerIt) B :=
  Build_Iterator W (t W TStreamIt A TInnerIt) B hasNext estimateRemaining next.
End FlatMapIterator.

(** ** TapIterator *)

Module TapIterator.
Section Def.
Context {W TStreamIt A : Type} `{Iterator W TStreamIt A}.

Record t : Type := { it : TStreamIt; lambda : ref_callable W A }.

Definition set_it (i : TStreamIt) (s : t) : t := {| it := i; lambda := lambda s |}.

Definition hasNext (s : t) : bool * t :=
  let (b, i) := hasNext (it s) in (b, set_it i s).

Definition estimateRemaining (s : t) : int * t :=
  let (r, i) := estimateRemaining (it s) in (r, set_it i s).

(** [auto x = it.next(); lambda(x); return x;]: the local [x] is passed as
    an lvalue and returned with the value the call leaves in it. *)
Definition next (n : nat) (s : t) : M W (A * t) :=
  '(x, i) <- next n (it s) ;;
  x' <- call (lambda s) x ;;
  ret (x', set_it i s).
End Def.
Arguments t : clear implicits.

#[global] Instance iterator (W TStreamIt A : Type) `{Iterator W TStreamIt A}
  : Iterator W (t W TStreamIt A) A :=
  Build_Iterator W (t W TStreamIt A) A hasNext estimateRemaining next.
End TapIterator.

(** ** LimitIterator *)

Module LimitIterator.
Section Def.
Context {W TStreamIt A : Type} `{Iterator W TStreamIt A}.

Record t : Type := { it : TStreamIt; size : int; idx : int }.

Definition set_it (i : TStreamIt) (s : t) : t :=
  {| it := i; size := size s; idx := idx s |}.

Definition set_idx (k : int) (s : t) : t :=
  {| it := it s; size := size s; idx := k |}.

(** [LimitIterator(TStreamIt i, int s)] *)
Definition new (i : TStreamIt) (s : int) : t := {| it := i; size := s; idx := 0 |}.

Definition hasNext (s : t) : bool * t :=
  if idx s <? size s then
    let (b, i) := hasNext (it s) in (b, set_it i s)
  else (false, s).

Definition estimateRemaining (s : t) : int * t :=
  let (rem, i) := estimateRemaining (it s) in
  let s' := set_it i s in
  (if rem <? wrap (size s' - idx s') then rem else wrap (size s' - idx s'), s').

Definition next (n : nat) (s : t) : M W (A * t) :=
  let s1 := set_idx (wrap (idx s + 1)) s in
  '(x, i) <- next n (it s1) ;;
  ret (x, set_it i s1).
End Def.
Arguments t : clear implicits.

#[global] Instance iterator (W TStreamIt A : Type) `{Iterator W TStreamIt A}
  : Iterator W (t TStreamIt) A :=
  Build_Iterator W (t TStreamIt) A hasNext estimateRemaining next.
End LimitIterator.

(** ** FilterIterator *)

Module FilterIterator.
Section Def.
Context {W TStreamIt A : Type} `{Iterator W TStreamIt A}.

Record t : Type := {
  it : TStreamIt;
  lambda : callable W A bool;
  hasValue : bool;
  hasInit : bool;
  currentValue : Detail.TypedStorage A
}.

Definition set_it (i : TStreamIt) (s : t) : t :=
  {| it := i; lambda := lambda s; hasValue := hasValue s;
     hasInit := hasInit s; currentValue := currentValue s |}.

Definition set_hasValue (b : bool) (s : t) : t :=
  {| it := it s; lambda := lambda s; hasValue := b;
     hasInit := hasInit s; currentValue := currentValue s |}.

Definition set_hasInit (b : bool) (s : t) : t :=
  {| it := it s; lambda := lambda s; hasValue := hasValue s;
     hasInit := b; currentValue := currentValue s |}.

Definition set_currentValue (c : Detail.TypedStorage A) (s : t) : t :=
  {| it := it s; lambda := lambda s; hasValue := hasValue s;
     hasInit := hasInit s; currentValue := c |}.

(** The [while (it.hasNext())] loop of [moveNext]. *)
Fixpoint moveNext_loop (n : nat) (s : t) : M W t :=
  match n with
  | O => out_of_fuel
  | S n' =>
    let (more, i1) := hasNext (it s) in
    let s0 := set_it i1 s in
    if more then
      '(x, i2) <- next n' i1 ;;
      let s1 := set_it i2 s0 in
      keep <- call (lambda s1) x ;;
      if keep then
        s2 <- (if negb (hasInit s1) then
                 ret (set_hasInit true
                        (set_currentValue (Detail.construct x (currentValue s1)) s1))
               else
                 c <- Detail.assign x (currentValue s1) ;;
                 ret (set_currentValue c s1)) ;;
        ret (set_hasValue true s2)
      else moveNext_loop n' s1
    else ret s0
  end.

Definition moveNext (n : nat) (s : t) : M W t :=
  moveNext_loop n (set_hasValue false s).

(** [FilterIterator(TStreamIt i, TLam l)] *)
Definition new (n : nat) (i : TStreamIt) (l : callable W A bool) : M W t :=
  moveNext n {| it := i; lambda := l; hasValue := false; hasInit := false;
                currentValue := Detail.raw |}.

(** [FilterIterator(const FilterIterator& x)] *)
Definition copy (x : t) : M W t :=
  if hasInit x then
    v <- Detail.get (currentValue x) ;;
    ret {| it := it x; lambda := lambda x; hasValue := hasValue x;
           hasInit := hasInit x; currentValue := Detail.construct v Detail.raw |}
  else
    ret {| it := it x; lambda := lambda x; hasValue := hasValue x;
           hasInit := hasInit x; currentValue := Detail.raw |}.

Definition estimateRemaining (s : t) : int * t :=
  let (r, i) := estimateRemaining (it s) in (r, set_it i s).

Definition hasNext (s : t) : bool * t := (hasValue s, s).

Definition next (n : nat) (s : t) : M W (A * t) :=
  x <- Detail.get (currentValue s) ;;
  s' <- moveNext n s ;;
  ret (x, s').
End Def.
Arguments t : clear implicits.

#[global] Instance iterator (W TStreamIt A : Type) `{Iterator W TStreamIt A}
  : Iterator W (t W TStreamIt A) A :=
  Build_Iterator W (t W TStreamIt A) A hasNext estimateRemaining next.
End FilterIterator.

(** ** The derived stream classes: their constructors *)

Section StreamClasses.
Context {W : Type}.

Definition VectorStream {T} (b e : Ptr T) : Stream (StreamIterator.t T) :=
  {| iterator := {| StreamIterator.current := b; StreamIterator.end_ := e |} |}.

Definition EmptyStream (T : Type) : Stream (EmptyIterator.t T) :=
  {| iterator := EmptyIterator.mk |}.

Definition MapStream {TStreamIt A B} (i : TStreamIt) (l : callable W A B)
  : Stream (MapIterator.t W TStreamIt A B) :=
  {| iterator := {| MapIterator.it := i; MapIterator.lambda := l |} |}.

Definition FlatMapStream {TStreamIt A TInnerIt B}
  `{Iterator W TStreamIt A} `{Iterator W TInnerIt B}
  (n : nat) (i : TStreamIt) (l : callable W A (Stream TInnerIt))
  : M W (Stream (FlatMapIterator.t W TStreamIt A TInnerIt)) :=
  fi <- FlatMapIterator.new n i l ;;
  ret {| iterator := fi |}.

Definition TapStream {TStreamIt A} (i : TStreamIt) (l : ref_callable W A)
  : Stream (TapIterator.t W TStreamIt A) :=
  {| iterator := {| TapIterator.it := i; TapIterator.lambda := l |} |}.

Definition LimitStream {TStreamIt} (i : TStreamIt) (s : int)
  : Stream (LimitIterator.t TStreamIt) :=
  {| iterator := LimitIterator.new i s |}.

Definition FilterStream {TStreamIt A} `{Iterator W TStreamIt A}
  (n : nat) (i : TStreamIt) (l : callable W A bool)
  : M W (Stream (FilterIterator.t W TStreamIt A)) :=
  fi <- FilterIterator.new n i l ;;
  ret {| iterator := fi |}.

End StreamClasses.

(** [of(container)], [of(data)]: the stream over a whole array
    ([of] is a keyword here). *)
Definition of_container {T} (container : list T) : Stream (StreamIterator.t T) :=
  VectorStream {| arr := container; off := 0 |}
               {| arr := container; off := Z.of_nat (length container) |}.

(** [of(begin, end)] *)
Definition of_range {T} (b e : Ptr T) : Stream (StreamIterator.t T) :=
  VectorStream b e.

(** [empty<T>()] *)
Definition empty (T : Type) : Stream (EmptyIterator.t T) := EmptyStream T.

(** ** The member functions of [Stream]

    Each takes the stream it is called on last ([this]) and returns its
    value with the state [this] is left in. *)

Module Stream.
Section Def.
Context {W TIt E : Type} `{Iterator W TIt E}.

Definition getIterator (this : Stream TIt) : TIt := iterator this.

(** *** Chaining: the iterator member is passed by value *)

Definition map {B} (lambda : callable W E B) (this : Stream TIt)
  : Stream (MapIterator.t W TIt E B) * Stream TIt :=
  (MapStream (iterator this) lambda, this).

Definition flatMap {TInnerIt B} `{Iterator W TInnerIt B}
  (n : nat) (lambda : callable W E (Stream TInnerIt)) (this : Stream TIt)
  : M W (Stream (FlatMapIterator.t W TIt E TInnerIt) * Stream TIt) :=
  s <- FlatMapStream n (iterator this) lambda ;;
  ret (s, this).

Definition filter (n : nat) (lambda : callable W E bool) (this : Stream TIt)
  : M W (Stream (FilterIterator.t W TIt E) * Stream TIt) :=
  s <- FilterStream n (iterator this) lambda ;;
  ret (s, this).

Definition tap (lambda : ref_callable W E) (this : Stream TIt)
  : Stream (TapIterator.t W TIt E) * Stream TIt :=
  (TapStream (iterator this) lambda, this).

Definition limit (size : int) (this : Stream TIt)
  : Stream (LimitIterator.t TIt) * Stream TIt :=
  (LimitStream (iterator this) size, this).

(** *** Terminal operations

    [while (iterator.hasNext()) { a = body(iterator.next(), a); }],
    the loop shared by [sink], [forEach], [reduce], both [count]s and
    [emplaceInto]. *)
Fixpoint pull {A} (body : E -> A -> M W A) (n : nat) (a : A) (this : Stream TIt)
  : M W (A * Stream TIt) :=
  match n with
  | O => out_of_fuel
  | S n' =>
    let (more, i1) := hasNext (iterator this) in
    if more then
      '(x, i2) <- next n' i1 ;;
      a' <- body x a ;;
      pull body n' a' {| iterator := i2 |}
    else ret (a, {| iterator := i1 |})
  end.

Definition sink (n : nat) (this : Stream TIt) : M W (unit * Stream TIt) :=
  pull (fun _ u => ret u) n tt this.

Definition forEach (f : callable W E unit) (n : nat) (this : Stream TIt)
  : M W (unit * Stream TIt) :=
  pull (fun x _ => call f x) n tt this.

Definition reduce {V} (f : E -> callable W V V) (accu : V) (n : nat) (this : Stream TIt)
  : M W (V * Stream TIt) :=
  pull (fun x a => call (f x) a) n accu this.

Fixpoint allMatch (f : callable W E bool) (n : nat) (this : Stream TIt)
  : M W (bool * Stream TIt) :=
  match n with
  | O => out_of_fuel
  | S n' =>
    let (more, i1) := hasNext (iterator this) in
    if more then
      '(x, i2) <- next n' i1 ;;
      b <- call f x ;;
      if negb b then ret (false, {| iterator := i2 |})
      else allMatch f n' {| iterator := i2 |}
    else ret (true, {| iterator := i1 |})
  end.

Fixpoint anyMatch (f : callable W E bool) (n : nat) (this : Stream TIt)
  : M W (bool * Stream TIt) :=
  match n with
  | O => out_of_fuel
  | S n' =>
    let (more, i1) := hasNext (iterator this) in
    if more then
      '(x, i2) <- next n' i1 ;;
      b <- call f x ;;
      if b then ret (true, {| iterator := i2 |})
      else anyMatch f n' {| iterator := i2 |}
    else ret (false, {| iterator := i1 |})
  end.

Definition count (n : nat) (this : Stream TIt) : M W (int * Stream TIt) :=
  pull (fun _ ctr => ret (wrap (ctr + 1))) n 0 this.

Definition count_if (f : callable W E bool) (n : nat) (this : Stream TIt)
  : M W (int * Stream TIt) :=
  pull (fun x ctr => b <- call f x ;; ret (if b then wrap (ctr + 1) else ctr)) n 0 this.

Definition emplaceInto (cont : list E) (n : nat) (this : Stream TIt)
  : M W (list E * Stream TIt) :=
  pull (fun x c => ret (c ++ [x])) n cont this.

End Def.
End Stream.

(** ** What a consumer sees of an iterator

    [drains g s w l s' w']: a consumer that asks [hasNext] before every
    [next], performs [g] on each element it receives and stops at the first
    [hasNext] that answers false receives exactly [l] from the iterator in
    state [s] and ambient state [w], and leaves them as [s'] and [w']. *)

Section Drains.
Context {W S E : Type} `{Iterator W S E}.

Inductive drains (g : E -> W -> W) : S -> W -> list E -> S -> W -> Prop :=
| drains_nil s s' w :
    hasNext s = (false, s') ->
    drains g s w [] s' w
| drains_cons s s1 w x s2 w2 l s3 w3 :
    hasNext s = (true, s1) ->
    eventually (fun n => next n s1 w) (Ok (x, s2) w2) ->
    drains g s2 (g x w2) l s3 w3 ->
    drains g s w (x :: l) s3 w3.

(** The consumer that only collects. *)
Definition passive : E -> W -> W := fun _ w => w.

End Drains.

(** The run of the outer iterator of a [flatMap]: every outer element is
    turned into an inner stream by [lambda], and that stream is drained
    before the next outer element is asked for. *)

Section FlatDrains.
Context {W TStreamIt A TInnerIt B : Type}.
Context `{Iterator W TStreamIt A} `{Iterator W TInnerIt B}.
Variable lambda : callable W A (Stream TInnerIt).

Inductive flat_drains : TStreamIt -> W -> list (list B) -> TStreamIt -> W -> Prop :=
| flat_nil o o' w :
    hasNext o = (false, o') ->
    flat_drains o w [] o' w
| flat_cons o o1 w x o2 w1 st w2 li i' w3 ls o' w' :
    hasNext o = (true, o1) ->
    eventually (fun n => next n o1 w) (Ok (x, o2) w1) ->
    lambda x w1 = (st, w2) ->
    drains passive (iterator st) w2 li i' w3 ->
    flat_drains o2 w3 ls o' w' ->
    flat_drains o w (li :: ls) o' w'.

End FlatDrains.

(** The iterator types the library can build: the two sources and the five
    transforms over an upstream that is itself one of these. *)
Inductive library_iterator (W : Type) : forall S E : Type, Iterator W S E -> Prop :=
| lib_StreamIterator T :
    library_iterator W _ _ (StreamIterator.iterator W T)
| lib_EmptyIterator T :
    library_iterator W _ _ (EmptyIterator.iterator W T)
| lib_MapIterator S A B (I : Iterator W S A) :
    library_iterator W S A I ->
    library_iterator W _ _ (@MapIterator.iterator W S A B I)
| lib_FlatMapIterator S A TInnerIt B (I : Iterator W S A) (J : Iterator W TInnerIt B) :
    library_iterator W S A I ->
    library_iterator W _ _ (@FlatMapIterator.iterator W S A TInnerIt B I J)
| lib_TapIterator S A (I : Iterator W S A) :
    library_iterator W S A I ->
    library_iterator W _ _ (@TapIterator.iterator W S A I)
| lib_LimitIterator S A (I : Iterator W S A) :
    library_iterator W S A I ->
    library_iterator W _ _ (@LimitIterator.iterator W S A I)
| lib_FilterIterator S A (I : Iterator W S A) :
    library_iterator W S A I ->
    library_iterator W _ _ (@FilterIterator.iterator W S A I).

(** What a callable does to the ambient state. *)
Definition effect_of {W A B} (f : callable W A B) (x : A) (w : W) : W := snd (f x w).

(** The [StreamIterator] over the array [a] with its cursor at offset [k]. *)
Definition cursor_state {T} (a : list T) (k : nat) : StreamIterator.t T :=
  {| StreamIterator.current := {| arr := a; off := Z.of_nat k |};
     StreamIterator.end_ := {| arr := a; off := Z.of_nat (length a) |} |}.

(** A chain with every transform in it, used as an example. *)
Definition sample_chain : M unit _ :=
  let s0 := of_container [1; 2; 3; 4] in
  let s1 := fst (Stream.map (W := unit) (pure_fn (fun x => x + 1)) s0) in
  '(s2, _) <- Stream.filter 9 (pure_fn (fun x => 2 <? x)) s1 ;;
  '(s3, _) <- Stream.flatMap 9 (pure_fn (fun x => of_container [x; x])) s2 ;;
  let s4 := fst (Stream.tap (W := unit) (E := Z) (fun x w => (x, w)) s3) in
  ret (fst (Stream.limit 3 s4)).

(** An iterator type whose [next] never lets the exception escape. *)
Definition never_throws {W S E : Type} (I : Iterator W S E) : Prop :=
  forall n (s : S) (w : W), next n s w <> Throw.

(** The flag of a buffered object agrees with its storage. *)
Definition Filter_consistent {W S A} (s : FilterIterator.t W S A) : Prop :=
  if FilterIterator.hasInit s then FilterIterator.currentValue s <> None
  else FilterIterator.currentValue s = None.

Definition FlatMap_consistent {W S A TI} (s : FlatMapIterator.t W S A TI) : Prop :=
  if FlatMapIterator.hasInnerIt s then FlatMapIterator.innerIt s <> None
  else FlatMapIterator.innerIt s = None.

(** The pipelines of the specification's examples. *)
Definition spec_pipeline : M unit (list Z) :=
  '(s1, _) <- Stream.filter 9 (pure_fn (fun x => 2 <? x)) (of_container [1; 2; 3; 4; 5]) ;;
  let s2 := fst (Stream.map (pure_fn (fun x => x * 10)) s1) in
  let s3 := fst (Stream.limit 2 s2) in
  '(c, _) <- Stream.emplaceInto [] 9 s3 ;;
  ret c.

Definition spec_characters : M unit (list ascii) :=
  '(s1, _) <- Stream.flatMap 9 (pure_fn (fun s => of_container (list_ascii_of_string s)))
                (of_container ["ab"%string; "cde"%string]) ;;
  '(c, _) <- Stream.emplaceInto [] 9 s1 ;;
  ret c.

(** The iterator of [filter(x > 1)] over {1, 2, 3} after [sink]. *)
Definition drained_filter : M unit (FilterIterator.t unit (StreamIterator.t Z) Z) :=
  '(s1, _) <- Stream.filter 9 (pure_fn (fun x => 1 <? x)) (of_container [1; 2; 3]) ;;
  '(_, s2) <- Stream.sink 9 s1 ;;
  ret (iterator s2).

(** * Properties *)

(** ** Reasoning about loop budgets *)

Lemma ev_now {W A} (f : nat -> result W A) (r : result W A) :
  (forall n, f n = r) -> eventually f r.
Proof. intros Hf. exists O. intros n _. apply Hf. Qed.

Lemma ev_S {W A} (h g : nat -> result W A) (r : result W A) :
  (forall n, h (S n) = g n) -> eventually g r -> eventually h r.
Proof.
  intros Hh [N Hg]. exists (S N). intros [|n] Hn; [lia|].
  rewrite Hh. apply Hg. lia.
Qed.

Lemma ev_bind {W A B} (f : nat -> result W A) (h g : nat -> result W B) ra r :
  eventually f ra ->
  (forall n, f n = ra -> h n = g n) ->
  eventually g r ->
  eventually h r.
Proof.
  intros [N1 Hf] Hh [N2 Hg]. exists (N1 + N2)%nat. intros n Hn.
  rewrite Hh by (apply Hf; lia). apply Hg. lia.
Qed.

Lemma ev_unique {W A} (f : nat -> result W A) r1 r2 :
  eventually f r1 -> eventually f r2 -> r1 = r2.
Proof.
  intros [N1 H1] [N2 H2].
  rewrite <- (H1 (N1 + N2)%nat), <- (H2 (N1 + N2)%nat) by lia. reflexivity.
Qed.

(** ** What an iterator yields is determined *)

Lemma drains_deterministic {W S E : Type} `{Iterator W S E} (g : E -> W -> W) :
  forall s w l1 s1 w1,
    drains g s w l1 s1 w1 ->
    forall l2 s2 w2,
      drains g s w l2 s2 w2 ->
      l1 = l2 /\ s1 = s2 /\ w1 = w2.
Proof.
  intros s w l1 s1 w1 Hd.
  induction Hd as [s s' w Hn | s sa w x sb wb l sc wc Hn Hx Hd IH];
    intros l2 s2 w2 Hd2.
  - inversion Hd2 as [t t' v Hn2 | t ta v y tb vb l' tc vc Hn2 Hy Hd']; subst.
    + rewrite Hn in Hn2. inversion Hn2. repeat split.
    + rewrite Hn in Hn2. discriminate.
  - inversion Hd2 as [t t' v Hn2 | t ta v y tb vb l' tc vc Hn2 Hy Hd']; subst.
    + rewrite Hn in Hn2. discriminate.
    + rewrite Hn in Hn2. inversion Hn2; subst.
      pose proof (ev_unique _ _ _ Hx Hy) as Heq. inversion Heq; subst.
      destruct (IH _ _ _ Hd') as (Hl & Hs & Hw). subst. repeat split.
Qed.

(** ** The terminal loop follows the run of its iterator *)

Section PullSpec.
Context {W TIt E : Type} `{Iterator W TIt E}.

Lemma pull_drains {A} (body : E -> A -> M W A) (h : E -> A -> A) (g : E -> W -> W) :
  (forall x a w, body x a w = Ok (h x a) (g x w)) ->
  forall s w l s' w', drains g s w l s' w' ->
  forall a,
    eventually (fun n => Stream.pull body n a {| iterator := s |} w)
               (Ok (fold_left (fun a x => h x a) l a, {| iterator := s' |}) w').
Proof.
  intros Hbody s w l s' w' Hd.
  induction Hd as [s s' w Hn | s s1 w x s2 w2 l s3 w3 Hn Hx Hd IH]; intros a.
  - apply ev_S with (g := fun _ => Ok (a, {| iterator := s' |}) w).
    + intros n. simpl. rewrite Hn. reflexivity.
    + apply ev_now. reflexivity.
  - eapply ev_S.
    + intros n. simpl. rewrite Hn. reflexivity.
    + eapply ev_bind; [exact Hx | | exact (IH (h x a))].
      intros n Hnx. unfold bind. rewrite Hnx, Hbody. reflexivity.
Qed.
End PullSpec.

(** ** The source over an array yields the array *)

Lemma skipn_nth_error {T} (a : list T) (k : nat) :
  (k < length a)%nat ->
  exists x, nth_error a k = Some x /\ skipn k a = x :: skipn (S k) a.
Proof.
  revert k. induction a as [|y a IH]; intros k Hk; simpl in Hk; [lia|].
  destruct k as [|k].
  - exists y. split; reflexivity.
  - destruct (IH k) as [x [Hx Hs]]; [lia|].
    exists x. split; [exact Hx|]. exact Hs.
Qed.

Lemma StreamIterator_drains {W T} (g : T -> W -> W) (a : list T) :
  forall (k : nat) (w : W),
    (k <= length a)%nat ->
    drains g (cursor_state a k) w (skipn k a)
           (cursor_state a (length a)) (fold_left (fun w x => g x w) (skipn k a) w).
Proof.
  intros k. remember (length a - k)%nat as m eqn:Hm.
  revert k Hm. induction m as [|m IH]; intros k Hm w Hk.
  - assert (k = length a) by lia. subst k.
    rewrite skipn_all. simpl. apply drains_nil.
    simpl. unfold StreamIterator.hasNext, ptr_neq. simpl.
    rewrite Z.eqb_refl. reflexivity.
  - destruct (skipn_nth_error a k) as [x [Hx Hs]]; [lia|].
    rewrite Hs. simpl.
    eapply drains_cons with (s1 := cursor_state a k) (s2 := cursor_state a (S k)).
    + simpl. unfold StreamIterator.hasNext, ptr_neq. simpl.
      destruct (Z.eqb_spec (Z.of_nat k) (Z.of_nat (length a))); [lia|reflexivity].
    + apply ev_now. intros n. simpl.
      unfold StreamIterator.next, bind, deref, cursor_state, ptr_incr. simpl.
      destruct (Z.leb_spec 0 (Z.of_nat k)); [|lia].
      rewrite Nat2Z.id, Hx. unfold ret.
      replace (Z.of_nat k + 1) with (Z.of_nat (S k)) by lia. reflexivity.
    + apply IH; lia.
Qed.

Lemma of_container_drains {W T} (g : T -> W -> W) (a : list T) (w : W) :
  drains g (iterator (of_container a)) w a
         (cursor_state a (length a)) (fold_left (fun w x => g x w) a w).
Proof. exact (StreamIterator_drains g a O w (Nat.le_0_l _)). Qed.

Lemma fold_left_passive {W E} (l : list E) (w : W) :
  fold_left (fun w x => @passive W E x w) l w = w.
Proof. induction l as [|x l IH]; simpl; [reflexivity|exact IH]. Qed.

Lemma of_container_yields {W T} (a : list T) (w : W) :
  drains passive (iterator (of_container a)) w a (cursor_state a (length a)) w.
Proof.
  pose proof (of_container_drains (@passive W T) a w) as Hd.
  rewrite fold_left_passive in Hd. exact Hd.
Qed.

(** ** Filter *)

Section FilterSpec.
Context {W TStreamIt A : Type} `{Iterator W TStreamIt A}.
Variable p : A -> bool.

(** The refill loop over an upstream that yields [l] leaves an iterator
    that yields the elements of [l] satisfying [p]. *)
Lemma Filter_moveNext_loop_drains :
  forall up w l up' w',
    drains passive up w l up' w' ->
    forall (hi : bool) (cv : Detail.TypedStorage A),
      (hi = true -> cv <> None) ->
      exists fs w1 fs',
        eventually
          (fun n => FilterIterator.moveNext_loop n
                      {| FilterIterator.it := up; FilterIterator.lambda := pure_fn p;
                         FilterIterator.hasValue := false; FilterIterator.hasInit := hi;
                         FilterIterator.currentValue := cv |} w)
          (Ok fs w1)
        /\ drains passive fs w1 (filter p l) fs' w'
        /\ FilterIterator.it fs' = up'.
Proof.
  intros up w l up' w' Hd.
  induction Hd as [s s' w Hn | s s1 w x s2 w2 l s3 w3 Hn Hx Hd IH]; intros hi cv Hwf.
  - eexists _, w, _. split; [|split].
    + eapply ev_S; [|apply ev_now; reflexivity].
      intros n. simpl. rewrite Hn. reflexivity.
    + simpl. apply drains_nil. reflexivity.
    + reflexivity.
  - change (passive x w2) with w2 in *. simpl.
    destruct (p x) eqn:Hp.
    + destruct (IH true (Some x)) as (fs2 & w3' & fs' & Hloop & Hrest & Hit);
        [discriminate|].
      exists {| FilterIterator.it := s2; FilterIterator.lambda := pure_fn p;
                FilterIterator.hasValue := true; FilterIterator.hasInit := true;
                FilterIterator.currentValue := Some x |}, w2, fs'.
      split; [|split; [|exact Hit]].
      * eapply ev_S; [intros n; simpl; rewrite Hn; reflexivity|].
        eapply ev_bind; [exact Hx| |apply ev_now; reflexivity].
        intros n Hnx. unfold bind. rewrite Hnx. simpl.
        unfold call, pure_fn. rewrite Hp.
        destruct hi; simpl.
        -- destruct cv; [reflexivity|]. exfalso. apply Hwf; reflexivity.
        -- reflexivity.
      * eapply drains_cons; [reflexivity| |exact Hrest].
        simpl. unfold FilterIterator.next, FilterIterator.moveNext.
        eapply ev_bind; [exact Hloop| |apply ev_now; reflexivity].
        intros n Hnl. unfold bind. simpl.
        unfold FilterIterator.set_hasValue. simpl. rewrite Hnl. reflexivity.
    + destruct (IH hi cv Hwf) as (fs2 & w3' & fs' & Hloop & Hrest & Hit).
      exists fs2, w3', fs'. split; [|split; [exact Hrest|exact Hit]].
      eapply ev_S; [intros n; simpl; rewrite Hn; reflexivity|].
      eapply ev_bind; [exact Hx| |exact Hloop].
      intros n Hnx. unfold bind. rewrite Hnx. simpl.
      unfold call, pure_fn. rewrite Hp. reflexivity.
Qed.
End FilterSpec.

Lemma count_if_count {A} (p : A -> bool) (l : list A) :
  forall c : int,
    fold_left (fun ctr x => if p x then wrap (ctr + 1) else ctr) l c
    = fold_left (fun ctr (_ : A) => wrap (ctr + 1)) (filter p l) c.
Proof.
  induction l as [|x l IH]; intros c; simpl; [reflexivity|].
  destruct (p x); simpl; apply IH.
Qed.

Lemma filter_satisfies {A} (p : A -> bool) (l : list A) :
  Forall (fun x => p x = true) (filter p l).
Proof.
  apply Forall_forall. intros x Hx. apply filter_In in Hx. tauto.
Qed.

(** ** Limit *)

Lemma wrap_id (z : Z) : in_int z -> wrap z = z.
Proof.
  unfold in_int, wrap. intros Hz.
  rewrite Z.mod_small by lia. lia.
Qed.

Section LimitSpec.
Context {W TStreamIt A : Type} `{Iterator W TStreamIt A}.

Lemma Limit_hasNext_below (s : LimitIterator.t TStreamIt) :
  LimitIterator.idx s < LimitIterator.size s ->
  hasNext s = (fst (hasNext (LimitIterator.it s)),
               LimitIterator.set_it (snd (hasNext (LimitIterator.it s))) s).
Proof.
  intros Hlt. simpl. unfold LimitIterator.hasNext.
  destruct (Z.ltb_spec (LimitIterator.idx s) (LimitIterator.size s)); [|lia].
  destruct (hasNext (LimitIterator.it s)); reflexivity.
Qed.

Lemma Limit_hasNext_reached (s : LimitIterator.t TStreamIt) :
  LimitIterator.size s <= LimitIterator.idx s ->
  hasNext s = (false, s).
Proof.
  intros Hge. simpl. unfold LimitIterator.hasNext.
  destruct (Z.ltb_spec (LimitIterator.idx s) (LimitIterator.size s)); [lia|reflexivity].
Qed.

Lemma Limit_drains :
  forall up w l up' w',
    drains passive up w l up' w' ->
    forall size idx : int,
      0 <= idx -> in_int size ->
      exists s' w'',
        drains passive
               {| LimitIterator.it := up; LimitIterator.size := size;
                  LimitIterator.idx := idx |} w
               (firstn (Z.to_nat (size - idx)) l) s' w''.
Proof.
  intros up w l up' w' Hd.
  induction Hd as [s s' w Hn | s s1 w x s2 w2 l s3 w3 Hn Hx Hd IH];
    intros size idx Hidx Hsize.
  - rewrite firstn_nil.
    destruct (idx <? size) eqn:Hlt; eexists _, w; apply drains_nil;
      simpl; unfold LimitIterator.hasNext; simpl; rewrite Hlt;
      [rewrite Hn|]; reflexivity.
  - change (passive x w2) with w2 in *.
    destruct (Z.ltb_spec idx size) as [Hlt|Hge].
    + replace (Z.to_nat (size - idx)) with (S (Z.to_nat (size - (idx + 1)))) by lia.
      simpl firstn.
      destruct (IH size (idx + 1)) as (sf & wf & Hrest); [lia|exact Hsize|].
      exists sf, wf.
      eapply drains_cons; [| |exact Hrest].
      * rewrite Limit_hasNext_below by (simpl; lia). simpl. rewrite Hn. reflexivity.
      * eapply ev_bind; [exact Hx| |apply ev_now; reflexivity].
        intros n Hnx. simpl. unfold LimitIterator.next, bind. simpl.
        rewrite Hnx. unfold LimitIterator.set_it, ret. simpl.
        rewrite wrap_id by (unfold in_int in *; lia). reflexivity.
    + replace (Z.to_nat (size - idx)) with O by lia. simpl.
      eexists _, w. apply drains_nil.
      apply Limit_hasNext_reached. simpl. lia.
Qed.
End LimitSpec.

(** ** Tap *)

Section TapSpec.
Context {W TStreamIt A : Type} `{Iterator W TStreamIt A}.

Lemma Tap_next_ref (l : ref_callable W A) (n : nat) (up : TStreamIt) (w : W) :
  next n {| TapIterator.it := up; TapIterator.lambda := l |} w
  = match next n up w with
    | Ok (x, up') w1 =>
        Ok (fst (l x w1), {| TapIterator.it := up'; TapIterator.lambda := l |})
           (effect_of l x w1)
    | Throw => Throw
    | Undefined => Undefined
    | OutOfFuel => OutOfFuel
    end.
Proof.
  simpl. unfold TapIterator.next, bind. simpl.
  destruct (next n up w) as [[x up'] w1| | |]; try reflexivity.
  unfold call, effect_of. destruct (l x w1); reflexivity.
Qed.

Variable lambda : callable W A unit.

Lemma Tap_next (n : nat) (up : TStreamIt) (w : W) :
  next n {| TapIterator.it := up; TapIterator.lambda := by_value lambda |} w
  = match next n up w with
    | Ok (x, up') w1 =>
        Ok (x, {| TapIterator.it := up'; TapIterator.lambda := by_value lambda |})
           (effect_of lambda x w1)
    | Throw => Throw
    | Undefined => Undefined
    | OutOfFuel => OutOfFuel
    end.
Proof.
  rewrite Tap_next_ref.
  destruct (next n up w) as [[x up'] w1| | |]; reflexivity.
Qed.

Lemma Tap_drains :
  forall up w l up' w',
    drains (effect_of lambda) up w l up' w' ->
    drains passive {| TapIterator.it := up; TapIterator.lambda := by_value lambda |} w l
           {| TapIterator.it := up'; TapIterator.lambda := by_value lambda |} w'.
Proof.
  intros up w l up' w' Hd.
  induction Hd as [s s' w Hn | s s1 w x s2 w2 l s3 w3 Hn Hx Hd IH].
  - apply drains_nil. simpl. unfold TapIterator.hasNext. simpl.
    rewrite Hn. reflexivity.
  - eapply drains_cons
      with (s1 := {| TapIterator.it := s1; TapIterator.lambda := by_value lambda |});
      [| |exact IH].
    + simpl. unfold TapIterator.hasNext. simpl. rewrite Hn. reflexivity.
    + eapply ev_bind; [exact Hx| |apply ev_now; reflexivity].
      intros n Hnx. rewrite Tap_next, Hnx. reflexivity.
Qed.
End TapSpec.

(** ** FlatMap *)

Section FlatMapSpec.
Context {W TStreamIt A TInnerIt B : Type}.
Context `{Iterator W TStreamIt A} `{Iterator W TInnerIt B}.
Variable lambda : callable W A (Stream TInnerIt).

Local Abbreviation mk := (@FlatMapIterator.Build_t W TStreamIt A TInnerIt).

(** While the live inner iterator still has elements, they come first. *)
Lemma FlatMap_inner_drains :
  forall i2 w2 l i' w3,
    drains passive i2 w2 l i' w3 ->
    forall i1 y w1 o rest fsK wK fs' w',
      eventually (fun n => next n i1 w1) (Ok (y, i2) w2) ->
      eventually (fun n => FlatMapIterator.moveNext_loop n (mk o lambda (Some i') false true) w3)
                 (Ok fsK wK) ->
      drains passive fsK wK rest fs' w' ->
      drains passive (mk o lambda (Some i1) true true) w1 (y :: l ++ rest) fs' w'.
Proof.
  intros i2 w2 l i' w3 Hd.
  induction Hd as [s s' w Hn | s s1 w x s2 w2 l s3 w3 Hn Hx Hd IH];
    intros i1 y w1 o rest fsK wK fs' w' Hy Hloop Hrest.
  - simpl app.
    eapply drains_cons with (s1 := mk o lambda (Some i1) true true); [reflexivity| |exact Hrest].
    eapply ev_bind; [exact Hy| |].
    + intros n Hny. simpl. unfold FlatMapIterator.next, bind. simpl.
      unfold ret at 1. rewrite Hny. simpl.
      unfold FlatMapIterator.moveNext. simpl. unfold bind. simpl.
      unfold ret at 1. rewrite Hn. reflexivity.
    + eapply ev_bind; [exact Hloop| |apply ev_now; reflexivity].
      intros n Hnl. unfold FlatMapIterator.set_innerIt, FlatMapIterator.set_hasValue.
      simpl. rewrite Hnl. reflexivity.
  - change (passive x w2) with w2 in *. simpl app.
    eapply drains_cons with (s1 := mk o lambda (Some i1) true true);
      [reflexivity| |exact (IH s1 x w o rest fsK wK fs' w' Hx Hloop Hrest)].
    eapply ev_bind; [exact Hy| |apply ev_now; reflexivity].
    intros n Hny. simpl. unfold FlatMapIterator.next, bind. simpl.
    unfold ret at 1. rewrite Hny. simpl.
    unfold FlatMapIterator.moveNext. simpl. unfold bind. simpl.
    unfold ret at 1. rewrite Hn. reflexivity.
Qed.

(** The outer loop of the refill yields the inner streams one after the
    other. *)
Lemma FlatMap_moveNext_loop_drains :
  forall o w ls o' w',
    flat_drains lambda o w ls o' w' ->
    forall (c : Detail.TypedStorage TInnerIt) (hi : bool),
      (hi = true -> c <> None) ->
      exists fs1 w1 fs',
        eventually (fun n => FlatMapIterator.moveNext_loop n (mk o lambda c false hi) w)
                   (Ok fs1 w1)
        /\ drains passive fs1 w1 (concat ls) fs' w'
        /\ FlatMapIterator.streamIt fs' = o'.
Proof.
  intros o w ls o' w' Hf.
  induction Hf as [o o' w Hn
                  | o o1 w x o2 w1 st w2 li i' w3 ls o' w' Hn Hx Hlam Hin Hf IH];
    intros c hi Hwf.
  - exists (mk o' lambda c false hi), w, (mk o' lambda c false hi). split; [|split].
    + eapply ev_S; [|apply ev_now; reflexivity].
      intros n. simpl. rewrite Hn. reflexivity.
    + apply drains_nil. reflexivity.
    + reflexivity.
  - assert (Hstep : forall n i1 b,
               hasNext (iterator st) = (b, i1) ->
               next n o1 w = Ok (x, o2) w1 ->
               FlatMapIterator.moveNext_loop (S n) (mk o lambda c false hi) w
               = if b then Ok (mk o2 lambda (Some i1) true true) w2
                 else FlatMapIterator.moveNext_loop n (mk o2 lambda (Some i1) false true) w2).
    { intros n i1 b Hb Hnx. simpl. rewrite Hn. unfold bind. rewrite Hnx. simpl.
      unfold call. rewrite Hlam.
      destruct hi; simpl.
      - destruct c as [c0|]; [|exfalso; apply Hwf; reflexivity]. simpl.
        unfold ret. simpl. rewrite Hb. destruct b; reflexivity.
      - unfold ret. simpl. rewrite Hb. destruct b; reflexivity. }
    inversion Hin as [s s' w0 Hi | s s1 w0 y s2 w4 l s3 w5 Hi Hy Hl]; subst;
      destruct (IH (Some i') true) as (fsK & wK & fs' & Hloop & Hrest & Hs);
      try discriminate.
    + exists fsK, wK, fs'. split; [|split; [exact Hrest|exact Hs]].
      eapply ev_S; [intros n; reflexivity|].
      eapply ev_bind; [exact Hx| |exact Hloop].
      intros n Hnx. rewrite (Hstep n i' false Hi Hnx). reflexivity.
    + exists (mk o2 lambda (Some s1) true true), w2, fs'. split; [|split; [|exact Hs]].
      * eapply ev_S; [intros n; reflexivity|].
        eapply ev_bind; [exact Hx| |apply ev_now; reflexivity].
        intros n Hnx. rewrite (Hstep n s1 true Hi Hnx). reflexivity.
      * simpl concat. simpl app.
        change (passive y w4) with w4 in Hl.
        exact (FlatMap_inner_drains _ _ _ _ _ Hl s1 y w2 o2 (concat ls)
                 fsK wK fs' w' Hy Hloop Hrest).
Qed.
End FlatMapSpec.

(** ** Sources over arrays under [flatMap] *)

Lemma flat_drains_of_containers {W A B : Type} (g : A -> list B) (a : list A) :
  forall (k : nat) (w : W),
    (k <= length a)%nat ->
    flat_drains (pure_fn (fun x => of_container (g x)))
                (cursor_state a k) w (map g (skipn k a)) (cursor_state a (length a)) w.
Proof.
  intros k. remember (length a - k)%nat as m eqn:Hm.
  revert k Hm. induction m as [|m IH]; intros k Hm w Hk.
  - assert (k = length a) by lia. subst k.
    rewrite skipn_all. simpl. apply flat_nil.
    simpl. unfold StreamIterator.hasNext, ptr_neq. simpl.
    rewrite Z.eqb_refl. reflexivity.
  - destruct (skipn_nth_error a k) as [x [Hx Hs]]; [lia|].
    rewrite Hs. simpl.
    eapply flat_cons with (o1 := cursor_state a k) (o2 := cursor_state a (S k)).
    + simpl. unfold StreamIterator.hasNext, ptr_neq. simpl.
      destruct (Z.eqb_spec (Z.of_nat k) (Z.of_nat (length a))); [lia|reflexivity].
    + apply ev_now. intros n. simpl.
      unfold StreamIterator.next, bind, deref, cursor_state, ptr_incr. simpl.
      destruct (Z.leb_spec 0 (Z.of_nat k)); [|lia].
      rewrite Nat2Z.id, Hx. unfold ret.
      replace (Z.of_nat k + 1) with (Z.of_nat (S k)) by lia. reflexivity.
    + reflexivity.
    + apply of_container_yields.
    + apply IH; lia.
Qed.

(** ** [hasNext] of the library's iterators changes nothing *)

Lemma library_hasNext_pure (W S E : Type) (I : Iterator W S E) :
  library_iterator W S E I -> forall s : S, snd (hasNext s) = s.
Proof.
  induction 1 as [T | T | S A B I HI IH | S A TInnerIt B I J HI IH
                 | S A I HI IH | S A I HI IH | S A I HI IH]; intros s.
  - reflexivity.
  - reflexivity.
  - simpl. unfold MapIterator.hasNext. specialize (IH (MapIterator.it s)).
    destruct (hasNext (MapIterator.it s)) as [b i]. simpl in *. subst i.
    destruct s; reflexivity.
  - reflexivity.
  - simpl. unfold TapIterator.hasNext. specialize (IH (TapIterator.it s)).
    destruct (hasNext (TapIterator.it s)) as [b i]. simpl in *. subst i.
    destruct s; reflexivity.
  - simpl. unfold LimitIterator.hasNext. specialize (IH (LimitIterator.it s)).
    destruct (LimitIterator.idx s <? LimitIterator.size s); [|reflexivity].
    destruct (hasNext (LimitIterator.it s)) as [b i]. simpl in *. subst i.
    destruct s; reflexivity.
  - reflexivity.
Qed.

Lemma drains_last {W S E : Type} `{Iterator W S E} (g : E -> W -> W) :
  forall s w l s' w',
    drains g s w l s' w' -> exists s0, hasNext s0 = (false, s').
Proof.
  intros s w l s' w' Hd.
  induction Hd as [s s' w Hn | s s1 w x s2 w2 l s3 w3 Hn Hx Hd IH].
  - exists s. exact Hn.
  - exact IH.
Qed.

Lemma wrap_succ (a : Z) : wrap (wrap a + 1) = wrap (a + 1).
Proof.
  unfold wrap.
  replace ((a + 2147483648) mod 4294967296 - 2147483648 + 1 + 2147483648)
    with ((a + 2147483648) mod 4294967296 + 1) by lia.
  rewrite Z.add_mod_idemp_l by lia.
  replace (a + 2147483648 + 1) with (a + 1 + 2147483648) by lia. reflexivity.
Qed.

Lemma count_fold {A} (l : list A) :
  forall c : Z,
    fold_left (fun ctr (_ : A) => wrap (ctr + 1)) l (wrap c)
    = wrap (c + Z.of_nat (length l)).
Proof.
  induction l as [|x l IH]; intros c.
  - simpl. rewrite Z.add_0_r. reflexivity.
  - cbn [fold_left length]. rewrite wrap_succ, IH. f_equal. lia.
Qed.

Lemma count_fold_0 {A} (l : list A) :
  fold_left (fun ctr (_ : A) => wrap (ctr + 1)) l 0 = wrap (Z.of_nat (length l)).
Proof. exact (count_fold l 0). Qed.

(** ** Only [EmptyIterator] raises the exception *)

Section FilterRefillNeverThrows.
Context {W S A : Type} (I : Iterator W S A).
Hypothesis Hup : never_throws I.

Lemma Filter_moveNext_loop_never_throws :
  forall n (s : FilterIterator.t W S A) w, FilterIterator.moveNext_loop n s w <> Throw.
Proof.
  induction n as [|n IH]; intros s w; simpl; [discriminate|].
  destruct (hasNext (FilterIterator.it s)) as [more i1].
  destruct more; [|discriminate].
  unfold bind. destruct (next n i1 w) as [[x i2] w1| | |] eqn:Hx;
    try discriminate; [|exact (False_ind _ (Hup n i1 w Hx))].
  unfold call. simpl. destruct (FilterIterator.lambda s x w1) as [keep w2].
  destruct keep; [|apply IH].
  destruct (FilterIterator.hasInit s); simpl; [|discriminate].
  destruct (FilterIterator.currentValue s); discriminate.
Qed.
End FilterRefillNeverThrows.

Lemma StreamIterator_never_throws (W T : Type) :
  never_throws (StreamIterator.iterator W T).
Proof.
  intros n s w. simpl. unfold StreamIterator.next, bind, deref.
  destruct (0 <=? off (StreamIterator.current s)); [|discriminate].
  destruct (nth_error _ _); discriminate.
Qed.

Section NeverThrows.
Context {W S A : Type} (I : Iterator W S A).
Hypothesis Hup : never_throws I.

Lemma Map_never_throws (B : Type) : never_throws (@MapIterator.iterator W S A B I).
Proof.
  intros n s w. simpl. unfold MapIterator.next, bind.
  destruct (next n (MapIterator.it s) w) as [[x i] w1| | |] eqn:Hx;
    try discriminate; [|exact (False_ind _ (Hup _ _ _ Hx))].
  unfold call. destruct (MapIterator.lambda s x w1). discriminate.
Qed.

Lemma Tap_never_throws : never_throws (@TapIterator.iterator W S A I).
Proof.
  intros n s w. simpl. unfold TapIterator.next, bind.
  destruct (next n (TapIterator.it s) w) as [[x i] w1| | |] eqn:Hx;
    try discriminate; [|exact (False_ind _ (Hup _ _ _ Hx))].
  unfold call. destruct (TapIterator.lambda s x w1). discriminate.
Qed.

Lemma Limit_never_throws : never_throws (@LimitIterator.iterator W S A I).
Proof.
  intros n s w. simpl. unfold LimitIterator.next, bind. simpl.
  destruct (next n (LimitIterator.it s) w) as [[x i] w1| | |] eqn:Hx;
    try discriminate. exact (False_ind _ (Hup _ _ _ Hx)).
Qed.

Lemma Filter_never_throws : never_throws (@FilterIterator.iterator W S A I).
Proof.
  intros n s w. simpl. unfold FilterIterator.next, bind.
  destruct (Detail.get (FilterIterator.currentValue s) w) as [v w1| | |] eqn:Hg;
    try discriminate.
  - unfold FilterIterator.moveNext.
    destruct (FilterIterator.moveNext_loop n _ w1) eqn:Hl; try discriminate.
    exact (False_ind _ (Filter_moveNext_loop_never_throws I Hup _ _ _ Hl)).
  - destruct (FilterIterator.currentValue s); discriminate.
Qed.

Section NeverThrowsFlatMap.
Context {TInnerIt B : Type} (J : Iterator W TInnerIt B).
Hypothesis Hin : never_throws J.

Lemma FlatMap_moveNext_loop_never_throws :
  forall n (s : FlatMapIterator.t W S A TInnerIt) w,
    FlatMapIterator.moveNext_loop n s w <> Throw.
Proof.
  induction n as [|n IH]; intros s w; simpl; [discriminate|].
  destruct (hasNext (FlatMapIterator.streamIt s)) as [more o1].
  destruct more; [|discriminate].
  unfold bind. destruct (next n o1 w) as [[x o2] w1| | |] eqn:Hx;
    try discriminate; [|exact (False_ind _ (Hup n o1 w Hx))].
  unfold call. simpl. destruct (FlatMapIterator.lambda s x w1) as [st w2].
  destruct (FlatMapIterator.hasInnerIt s); simpl.
  - destruct (FlatMapIterator.innerIt s); simpl; [|discriminate].
    unfold ret. simpl. destruct (hasNext (iterator st)) as [b i'].
    destruct b; [discriminate|apply IH].
  - unfold ret. simpl. destruct (hasNext (iterator st)) as [b i'].
    destruct b; [discriminate|apply IH].
Qed.

Lemma FlatMap_never_throws :
  never_throws (@FlatMapIterator.iterator W S A TInnerIt B I J).
Proof.
  intros n s w. simpl. unfold FlatMapIterator.next, bind.
  destruct (FlatMapIterator.innerIt s) as [i|] eqn:Hi; simpl; [|discriminate].
  destruct (next n i w) as [[x i'] w1| | |] eqn:Hx;
    try discriminate; [|exact (False_ind _ (Hin _ _ _ Hx))].
  unfold FlatMapIterator.moveNext. simpl.
  destruct (FlatMapIterator.hasInnerIt s); simpl.
  - unfold bind, ret. simpl. destruct (hasNext i') as [b i''].
    destruct b; [discriminate|].
    destruct (FlatMapIterator.moveNext_loop n _ w1) eqn:Hl; try discriminate.
    exact (False_ind _ (FlatMap_moveNext_loop_never_throws _ _ _ Hl)).
  - destruct (FlatMapIterator.moveNext_loop n _ w1) eqn:Hl; try discriminate.
    exact (False_ind _ (FlatMap_moveNext_loop_never_throws _ _ _ Hl)).
Qed.
End NeverThrowsFlatMap.
End NeverThrows.

(** ** The buffered slots stay consistent, and copies are faithful *)

Section FilterConsistent.
Context {W S A : Type} `{Iterator W S A}.

Lemma Filter_copy_consistent (x : FilterIterator.t W S A) (w : W) :
  Filter_consistent x -> FilterIterator.copy x w = Ok x w.
Proof.
  unfold Filter_consistent, FilterIterator.copy. destruct x as [i l hv hi cv]. simpl.
  destruct hi; intros Hc.
  - destruct cv; [reflexivity|contradiction].
  - subst cv. reflexivity.
Qed.

Lemma Filter_moveNext_loop_consistent :
  forall n (s : FilterIterator.t W S A) w s' w',
    Filter_consistent s ->
    FilterIterator.moveNext_loop n s w = Ok s' w' ->
    Filter_consistent s'.
Proof.
  induction n as [|n IH]; intros s w s' w' Hc; simpl; [discriminate|].
  destruct (hasNext (FilterIterator.it s)) as [more i1].
  destruct more.
  - unfold bind. destruct (next n i1 w) as [[x i2] w1| | |]; try discriminate.
    unfold call. simpl. destruct (FilterIterator.lambda s x w1) as [keep w2].
    destruct keep.
    + unfold Filter_consistent in *. destruct s as [i l hv hi cv]. simpl in *.
      destruct hi; simpl.
      * destruct cv; [|contradiction]. simpl. intros Heq. inversion Heq. simpl.
        discriminate.
      * intros Heq. inversion Heq. simpl. discriminate.
    + apply IH. exact Hc.
  - intros Heq. inversion Heq. exact Hc.
Qed.

Lemma Filter_new_consistent n (i : S) l w s w' :
  FilterIterator.new n i l w = Ok s w' -> Filter_consistent s.
Proof.
  apply Filter_moveNext_loop_consistent. reflexivity.
Qed.

Lemma Filter_next_consistent n (s : FilterIterator.t W S A) w x s' w' :
  Filter_consistent s -> next n s w = Ok (x, s') w' -> Filter_consistent s'.
Proof.
  intros Hc. simpl. unfold FilterIterator.next, bind.
  destruct (Detail.get (FilterIterator.currentValue s) w) as [v w1| | |];
    try discriminate.
  destruct (FilterIterator.moveNext n s w1) as [s1 w2| | |] eqn:Hm; try discriminate.
  intros Heq. inversion Heq; subst.
  exact (Filter_moveNext_loop_consistent n (FilterIterator.set_hasValue false s)
           w1 s' w' Hc Hm).
Qed.
End FilterConsistent.

Section FlatMapConsistent.
Context {W S A TI B : Type} `{Iterator W S A} `{Iterator W TI B}.

Lemma FlatMap_copy_consistent (x : FlatMapIterator.t W S A TI) (w : W) :
  FlatMap_consistent x -> FlatMapIterator.copy x w = Ok x w.
Proof.
  unfold FlatMap_consistent, FlatMapIterator.copy. destruct x as [o l c hv hi]. simpl.
  destruct hi; intros Hc.
  - destruct c; [reflexivity|contradiction].
  - subst c. reflexivity.
Qed.

Lemma FlatMap_moveNext_loop_consistent :
  forall n (s : FlatMapIterator.t W S A TI) w s' w',
    FlatMap_consistent s ->
    FlatMapIterator.moveNext_loop n s w = Ok s' w' ->
    FlatMap_consistent s'.
Proof.
  induction n as [|n IH]; intros s w s' w' Hc; simpl; [discriminate|].
  destruct (hasNext (FlatMapIterator.streamIt s)) as [more o1].
  destruct more.
  - unfold bind. destruct (next n o1 w) as [[x o2] w1| | |]; try discriminate.
    unfold call. simpl. destruct (FlatMapIterator.lambda s x w1) as [st w2].
    assert (Hgo : forall s2 : FlatMapIterator.t W S A TI,
               FlatMap_consistent s2 ->
               (let (b, i') := hasNext (iterator st) in
                if b
                then ret (FlatMapIterator.set_hasValue true
                            (FlatMapIterator.set_innerIt (Some i') s2))
                else FlatMapIterator.moveNext_loop n
                       (FlatMapIterator.set_innerIt (Some i') s2)) w2 = Ok s' w' ->
               FlatMapIterator.hasInnerIt s2 = true ->
               FlatMap_consistent s').
    { intros s2 Hc2 Hrun Hhi. destruct (hasNext (iterator st)) as [b i'].
      destruct b.
      - inversion Hrun. unfold FlatMap_consistent. simpl. rewrite Hhi. discriminate.
      - apply IH in Hrun; [exact Hrun|].
        unfold FlatMap_consistent. simpl. rewrite Hhi. discriminate. }
    unfold FlatMap_consistent in Hc. destruct s as [o l c hv hi]. simpl in *.
    destruct hi; simpl.
    + destruct c; [|contradiction]. simpl. unfold ret at 1. simpl.
      intros Hrun. refine (Hgo _ _ Hrun _); [|reflexivity].
      unfold FlatMap_consistent. simpl. discriminate.
    + unfold ret at 1. simpl.
      intros Hrun. refine (Hgo _ _ Hrun _); [|reflexivity].
      unfold FlatMap_consistent. simpl. discriminate.
  - intros Heq. inversion Heq. exact Hc.
Qed.

Lemma FlatMap_moveNext_consistent :
  forall n (s : FlatMapIterator.t W S A TI) w s' w',
    FlatMap_consistent s ->
    FlatMapIterator.moveNext n s w = Ok s' w' ->
    FlatMap_consistent s'.
Proof.
  intros n s w s' w' Hc. unfold FlatMapIterator.moveNext.
  unfold FlatMap_consistent in Hc. destruct s as [o l c hv hi]. simpl in *.
  destruct hi; simpl.
  - destruct c as [i|]; [|contradiction]. unfold bind. simpl.
    destruct (hasNext i) as [b i']. destruct b.
    + intros Heq. inversion Heq. unfold FlatMap_consistent. simpl. discriminate.
    + apply FlatMap_moveNext_loop_consistent.
      unfold FlatMap_consistent. simpl. discriminate.
  - apply FlatMap_moveNext_loop_consistent. exact Hc.
Qed.

Lemma FlatMap_new_consistent n (i : S) l w (s : FlatMapIterator.t W S A TI) w' :
  FlatMapIterator.new n i l w = Ok s w' -> FlatMap_consistent s.
Proof.
  apply FlatMap_moveNext_consistent. reflexivity.
Qed.

Lemma FlatMap_next_consistent n (s : FlatMapIterator.t W S A TI) w x s' w' :
  FlatMap_consistent s -> next n s w = Ok (x, s') w' -> FlatMap_consistent s'.
Proof.
  intros Hc. simpl. unfold FlatMapIterator.next, bind.
  unfold FlatMap_consistent in Hc. destruct s as [o l c hv hi]. simpl in *.
  destruct c as [i|]; simpl; [|discriminate].
  destruct hi; [|discriminate].
  destruct (next n i w) as [[y i'] w2| | |]; try discriminate.
  destruct (FlatMapIterator.moveNext n _ w2) as [s1 w3| | |] eqn:Hm;
    try discriminate.
  intros Heq. inversion Heq; subst.
  apply (FlatMap_moveNext_consistent _ _ _ _ _) with (2 := Hm).
  unfold FlatMap_consistent. simpl. discriminate.
Qed.
End FlatMapConsistent.

(** ** The examples of the specification *)

Example spec_pipeline_result : spec_pipeline tt = Ok [30; 40] tt.
Proof. reflexivity. Qed.

Example spec_characters_result :
  spec_characters tt = Ok ["a"; "b"; "c"; "d"; "e"]%char tt.
Proof. reflexivity. Qed.

Example empty_allMatch (f : callable unit Z bool) :
  Stream.allMatch f 1 (empty Z) tt = Ok (true, empty Z) tt
  /\ Stream.anyMatch f 1 (empty Z) tt = Ok (false, empty Z) tt.
Proof. split; reflexivity. Qed.

(** Past the end of its array a [StreamIterator] dereferences its cursor. *)
Example exhausted_StreamIterator_next :
  fst (hasNext (W := unit) (cursor_state [1; 2] 2)) = false
  /\ next 1 (cursor_state [1; 2] 2) tt = Undefined.
Proof. split; reflexivity. Qed.

(** A drained [FilterIterator] hands out its last buffered element again. *)
Example exhausted_Filter_next :
  match drained_filter tt with
  | Ok s w =>
      fst (hasNext (W := unit) s) = false
      /\ match next 9 s w with
         | Ok (x, s') _ => x = 3 /\ s' = s
         | _ => False
         end
  | _ => False
  end.
Proof. vm_compute. repeat split; reflexivity. Qed.

(** * The claims *)

(** C1 (counterexample).  [limit(1)] over {10, 20, 30}: after [sink] has
    drained the stream, [hasNext] of its iterator answers false, and [next]
    raises nothing: it returns 20, the next element of the upstream. *)
Lemma C1_counterexample :
  match Stream.sink 5 (fst (Stream.limit 1 (of_container [10; 20; 30]))) tt with
  | Ok (_, s) w =>
      fst (hasNext (W := unit) (iterator s)) = false /\
      match next 5 (iterator s) w with
      | Ok (x, _) _ => x = 20
      | _ => False
      end
  | _ => False
  end.
Proof. vm_compute. split; reflexivity. Qed.

(** C1 (amended).  [EmptyIterator::next] raises the exception whenever it
    is called, its [hasNext] being always false.  No other iterator raises
    it of its own: [StreamIterator::next] never does, and the [next] of a
    transform never does over an upstream (for FlatMap, over an outer and
    inner iterator) whose [next] never does; Map, Tap and Limit pass the
    exception of their upstream on.  After a terminal loop has drained a
    Stream over any iterator of the library, [hasNext] of its iterator
    answers false. *)
Theorem C1_exhausted_iterator :
  (forall (W T : Type) (n : nat) (s : EmptyIterator.t T) (w : W),
      hasNext (W := W) s = (false, s) /\ next n s w = Throw)
  /\ (forall W T : Type, never_throws (StreamIterator.iterator W T))
  /\ (forall (W S A : Type) (I : Iterator W S A),
        never_throws I ->
        (forall B, never_throws (@MapIterator.iterator W S A B I))
        /\ never_throws (@TapIterator.iterator W S A I)
        /\ never_throws (@LimitIterator.iterator W S A I)
        /\ never_throws (@FilterIterator.iterator W S A I)
        /\ (forall TInnerIt B (J : Iterator W TInnerIt B),
              never_throws J ->
              never_throws (@FlatMapIterator.iterator W S A TInnerIt B I J)))
  /\ (forall (W S A : Type) (I : Iterator W S A) (n : nat) (up : S) (w : W),
        next n up w = Throw ->
        (forall B (l : callable W A B),
            next n {| MapIterator.it := up; MapIterator.lambda := l |} w = Throw)
        /\ (forall l : ref_callable W A,
              next n {| TapIterator.it := up; TapIterator.lambda := l |} w = Throw)
        /\ (forall size idx : int,
              next n {| LimitIterator.it := up; LimitIterator.size := size;
                        LimitIterator.idx := idx |} w = Throw))
  /\ (forall (W S E : Type) (I : Iterator W S E),
        library_iterator W S E I ->
        forall (A : Type) (body : E -> A -> M W A) (h : E -> A -> A) (g : E -> W -> W),
          (forall x a w, body x a w = Ok (h x a) (g x w)) ->
          forall (s : S) (w : W) (l : list E) (s' : S) (w' : W) (a : A),
            drains g s w l s' w' ->
            eventually (fun n => Stream.pull body n a {| iterator := s |} w)
                       (Ok (fold_left (fun a x => h x a) l a, {| iterator := s' |}) w')
            /\ hasNext s' = (false, s')).
Proof.
  split; [|split; [|split; [|split]]].
  - intros W T n s w. split; reflexivity.
  - exact StreamIterator_never_throws.
  - intros W S A I Hup. repeat split.
    + intros B. apply Map_never_throws. exact Hup.
    + apply Tap_never_throws. exact Hup.
    + apply Limit_never_throws. exact Hup.
    + apply Filter_never_throws. exact Hup.
    + intros TInnerIt B J Hin. apply FlatMap_never_throws; assumption.
  - intros W S A I n up w Hup. repeat split; intros; simpl.
    + unfold MapIterator.next, bind. simpl. rewrite Hup. reflexivity.
    + unfold TapIterator.next, bind. simpl. rewrite Hup. reflexivity.
    + unfold LimitIterator.next, bind. simpl. rewrite Hup. reflexivity.
  - intros W S E I Hlib A body h g Hbody s w l s' w' a Hd. split.
    + exact (pull_drains body h g Hbody s w l s' w' Hd a).
    + destruct (drains_last g s w l s' w' Hd) as [s0 Hs0].
      pose proof (library_hasNext_pure W S E I Hlib s0) as Hp.
      rewrite Hs0 in Hp. simpl in Hp. subst s0. exact Hs0.
Qed.

(** C1 (amended), at a stream over {1, 2} and at a Limit stage over an
    empty source. *)
Lemma C1_witness :
  never_throws (@LimitIterator.iterator unit _ Z (StreamIterator.iterator unit Z))
  /\ never_throws (@FlatMapIterator.iterator unit _ Z _ Z
                     (StreamIterator.iterator unit Z) (StreamIterator.iterator unit Z))
  /\ next 1 {| LimitIterator.it := @EmptyIterator.mk Z; LimitIterator.size := 3;
               LimitIterator.idx := 0 |} tt = Throw
  /\ eventually (fun n => Stream.sink n (of_container [1; 2]) tt)
                (Ok (tt, {| iterator := cursor_state [1; 2] 2 |}) tt)
  /\ hasNext (W := unit) (cursor_state [1; 2] 2) = (false, cursor_state [1; 2] 2).
Proof.
  destruct C1_exhausted_iterator as (_ & Hsrc & Hstage & Hprop & Hdrain).
  split; [|split; [|split]].
  - destruct (Hstage unit _ Z _ (Hsrc unit Z)) as (_ & _ & Hlimit & _).
    exact Hlimit.
  - destruct (Hstage unit _ Z _ (Hsrc unit Z)) as (_ & _ & _ & _ & Hflat).
    exact (Hflat _ Z _ (Hsrc unit Z)).
  - apply (Hprop unit _ Z _ 1%nat EmptyIterator.mk tt). reflexivity.
  - exact (Hdrain unit _ Z _ (lib_StreamIterator unit Z) unit
             (fun _ u => ret u) (fun _ u => u) passive
             (fun x a w => eq_refl)
             (iterator (of_container [1; 2])) tt [1; 2] (cursor_state [1; 2] 2) tt tt
             (of_container_yields [1; 2] tt)).
Defined.

(** C2.  Over a source that yields [l], [filter(f)] yields the elements of
    [l] that satisfy [f], in their order in [l]; each of them satisfies
    [f]; and [count(f)] on the source returns what [count()] returns on
    [filter(f)], the number of these elements as an [int]. *)
Theorem C2_filter_subsequence {W TIt E : Type} `{Iterator W TIt E}
  (f : E -> bool) (this : Stream TIt) (w : W) (l : list E) (s' : TIt) (w' : W) :
  drains passive (iterator this) w l s' w' ->
  exists fs w1 fs',
    eventually (fun n => Stream.filter n (pure_fn f) this w) (Ok (fs, this) w1)
    /\ drains passive (iterator fs) w1 (filter f l) fs' w'
    /\ Forall (fun x => f x = true) (filter f l)
    /\ eventually (fun n => Stream.count_if (pure_fn f) n this w)
                  (Ok (wrap (Z.of_nat (length (filter f l))), {| iterator := s' |}) w')
    /\ eventually (fun n => Stream.count n fs w1)
                  (Ok (wrap (Z.of_nat (length (filter f l))), {| iterator := fs' |}) w').
Proof.
  intros Hd. destruct this as [up]. simpl in Hd.
  destruct (Filter_moveNext_loop_drains f up w l s' w' Hd false Detail.raw)
    as (fi & w1 & fs' & Hloop & Hfd & Hit); [discriminate|].
  exists {| iterator := fi |}, w1, fs'. repeat split.
  - eapply ev_bind; [exact Hloop| |apply ev_now; reflexivity].
    intros n Hn. unfold Stream.filter, FilterStream, FilterIterator.new,
      FilterIterator.moveNext, bind. simpl.
    unfold FilterIterator.set_hasValue. simpl. rewrite Hn. reflexivity.
  - exact Hfd.
  - apply filter_satisfies.
  - pose proof (pull_drains
                  (fun x ctr => b <- call (pure_fn f) x ;;
                                ret (if b then wrap (ctr + 1) else ctr))
                  (fun x ctr => if f x then wrap (ctr + 1) else ctr) passive
                  (fun x a w => eq_refl) up w l s' w' Hd 0) as Hc.
    cbv beta in Hc. rewrite count_if_count, count_fold_0 in Hc. exact Hc.
  - pose proof (pull_drains
                  (fun (_ : E) ctr => ret (wrap (ctr + 1)))
                  (fun _ ctr => wrap (ctr + 1)) passive
                  (fun x a w => eq_refl) fi w1 (filter f l) fs' w' Hfd 0) as Hc.
    cbv beta in Hc. rewrite count_fold_0 in Hc. exact Hc.
Qed.

(** C2, at the elements above 2 of {1, 2, 3, 4, 5}. *)
Lemma C2_witness :
  exists fs w1 fs',
    eventually (fun n => Stream.filter n (pure_fn (fun x => 2 <? x))
                           (of_container [1; 2; 3; 4; 5]) tt)
               (Ok (fs, of_container [1; 2; 3; 4; 5]) w1)
    /\ drains passive (iterator fs) w1 [3; 4; 5] fs' tt
    /\ Forall (fun x => (2 <? x) = true) [3; 4; 5]
    /\ eventually (fun n => Stream.count_if (pure_fn (fun x => 2 <? x)) n
                              (of_container [1; 2; 3; 4; 5]) tt)
                  (Ok (3, {| iterator := cursor_state [1; 2; 3; 4; 5] 5 |}) tt)
    /\ eventually (fun n => Stream.count n fs w1)
                  (Ok (3, {| iterator := fs' |}) tt).
Proof.
  exact (C2_filter_subsequence (fun x => 2 <? x) (of_container [1; 2; 3; 4; 5]) tt
           [1; 2; 3; 4; 5] (cursor_state [1; 2; 3; 4; 5] 5) tt
           (of_container_yields [1; 2; 3; 4; 5] tt)).
Defined.

(** C3.  When the outer iterator yields elements whose inner streams yield
    the lists [ls], in that order, [flatMap] yields the concatenation of
    [ls]: the elements of the inner streams that are not empty, in order.
    When all inner streams are empty, [hasNext] is false from
    construction. *)
Theorem C3_flatMap_concat {W TIt E TInnerIt B : Type}
  `{Iterator W TIt E} `{Iterator W TInnerIt B}
  (lambda : callable W E (Stream TInnerIt)) (this : Stream TIt)
  (w : W) (ls : list (list B)) (o' : TIt) (w' : W) :
  flat_drains lambda (iterator this) w ls o' w' ->
  exists fm w1 fs',
    eventually (fun n => Stream.flatMap n lambda this w) (Ok (fm, this) w1)
    /\ drains passive (iterator fm) w1 (concat ls) fs' w'
    /\ concat ls = concat (filter (fun li => negb (Nat.eqb (length li) 0)) ls)
    /\ (Forall (fun li => li = []) ls -> hasNext (iterator fm) = (false, iterator fm)).
Proof.
  intros Hf. destruct this as [up]. simpl in Hf.
  destruct (FlatMap_moveNext_loop_drains lambda up w ls o' w' Hf Detail.raw false)
    as (fi & w1 & fs' & Hloop & Hfd & Hit); [discriminate|].
  exists {| iterator := fi |}, w1, fs'. repeat split.
  - eapply ev_bind; [exact Hloop| |apply ev_now; reflexivity].
    intros n Hn. unfold Stream.flatMap, FlatMapStream, FlatMapIterator.new,
      FlatMapIterator.moveNext, bind. simpl.
    unfold FlatMapIterator.set_hasValue. simpl. rewrite Hn. reflexivity.
  - exact Hfd.
  - clear. induction ls as [|li ls IH]; [reflexivity|].
    simpl. destruct li as [|y li]; simpl; [exact IH|]. rewrite IH. reflexivity.
  - intros Hall. simpl.
    assert (Hnil : concat ls = []).
    { clear -Hall. induction Hall as [|li ls Hli _ IH]; [reflexivity|].
      subst li. exact IH. }
    rewrite Hnil in Hfd. inversion Hfd as [s s0 w0 Hh|]; subst.
    change (FlatMapIterator.hasNext fi = (false, fi)).
    change (FlatMapIterator.hasNext fi = (false, fs')) in Hh.
    unfold FlatMapIterator.hasNext in *.
    injection Hh as Hv Hs. rewrite Hv. reflexivity.
Qed.

(** C3, at {2, 0, 3, 0} and at {0, 0}, with each x mapped to x copies of
    x. *)
Lemma C3_witness :
  (exists fm w1 fs',
      eventually (fun n => Stream.flatMap n
                             (pure_fn (fun x => of_container (repeat x (Z.to_nat x))))
                             (of_container [2; 0; 3; 0]) tt)
                 (Ok (fm, of_container [2; 0; 3; 0]) w1)
      /\ drains passive (iterator fm) w1 [2; 2; 3; 3; 3] fs' tt
      /\ [2; 2; 3; 3; 3] = concat [[2; 2]; [3; 3; 3]]
      /\ (Forall (fun li => li = []) [[2; 2]; []; [3; 3; 3]; []] ->
          hasNext (iterator fm) = (false, iterator fm)))
  /\ (exists fm w1,
        eventually (fun n => Stream.flatMap n
                               (pure_fn (fun x => of_container (repeat x (Z.to_nat x))))
                               (of_container [0; 0]) tt)
                   (Ok (fm, of_container [0; 0]) w1)
        /\ hasNext (iterator fm) = (false, iterator fm)).
Proof.
  split.
  - exact (C3_flatMap_concat (pure_fn (fun x => of_container (repeat x (Z.to_nat x))))
             (of_container [2; 0; 3; 0]) tt [[2; 2]; []; [3; 3; 3]; []]
             (cursor_state [2; 0; 3; 0] 4) tt
             (flat_drains_of_containers (fun x => repeat x (Z.to_nat x)) [2; 0; 3; 0]
                O tt (Nat.le_0_l _))).
  - destruct (C3_flatMap_concat
                (pure_fn (fun x => of_container (repeat x (Z.to_nat x))))
                (of_container [0; 0]) tt [[]; []] (cursor_state [0; 0] 2) tt
                (flat_drains_of_containers (fun x => repeat x (Z.to_nat x)) [0; 0]
                   O tt (Nat.le_0_l _)))
      as (fm & w1 & fs' & Hnew & _ & _ & Hempty).
    exists fm, w1. split; [exact Hnew|].
    apply Hempty. repeat constructor.
Defined.

(** C4.  Over a source that yields [l], [limit(n)] yields the first
    [n] elements of [l] in order, all of [l] when it has fewer: min(m, n)
    elements for [l] of length m.  Its [hasNext] is that of the upstream
    while the index is below the bound, and answers false without asking
    the upstream once the bound is reached. *)
Theorem C4_limit_prefix {W TIt E : Type} `{Iterator W TIt E}
  (this : Stream TIt) (n : int) (w : W) (l : list E) (s' : TIt) (w' : W) :
  in_int n ->
  drains passive (iterator this) w l s' w' ->
  (exists sf wf,
      drains passive (iterator (fst (Stream.limit n this))) w
             (firstn (Z.to_nat n) l) sf wf)
  /\ length (firstn (Z.to_nat n) l) = Nat.min (length l) (Z.to_nat n)
  /\ (0 <= n -> Z.of_nat (length (firstn (Z.to_nat n) l)) = Z.min (Z.of_nat (length l)) n)
  /\ (forall s : LimitIterator.t TIt,
        hasNext s
        = if LimitIterator.idx s <? LimitIterator.size s
          then (fst (hasNext (LimitIterator.it s)),
                LimitIterator.set_it (snd (hasNext (LimitIterator.it s))) s)
          else (false, s)).
Proof.
  intros Hn Hd. split; [|split; [|split]].
  - destruct this as [up]. simpl in *.
    destruct (Limit_drains up w l s' w' Hd n 0) as (sf & wf & Hl); [lia|exact Hn|].
    rewrite Z.sub_0_r in Hl. exists sf, wf. exact Hl.
  - rewrite length_firstn. lia.
  - intros Hpos. rewrite length_firstn. lia.
  - intros s. destruct (Z.ltb_spec (LimitIterator.idx s) (LimitIterator.size s)).
    + apply Limit_hasNext_below. assumption.
    + apply Limit_hasNext_reached. assumption.
Qed.

(** C4, at [limit(2)] over {7, 8, 9}. *)
Lemma C4_witness :
  (exists sf wf,
      drains passive (iterator (fst (Stream.limit 2 (of_container [7; 8; 9])))) tt
             [7; 8] sf wf)
  /\ length [7; 8] = 2%nat
  /\ (0 <= 2 -> 2 = Z.min 3 2)
  /\ (forall s : LimitIterator.t (StreamIterator.t Z),
        hasNext (W := unit) s
        = if LimitIterator.idx s <? LimitIterator.size s
          then (fst (hasNext (W := unit) (LimitIterator.it s)),
                LimitIterator.set_it (snd (hasNext (W := unit) (LimitIterator.it s))) s)
          else (false, s)).
Proof.
  refine (C4_limit_prefix (of_container [7; 8; 9]) 2 tt [7; 8; 9]
            (cursor_state [7; 8; 9] 3) tt _ (of_container_yields [7; 8; 9] tt)).
  unfold in_int. lia.
Defined.

(** C5 (counterexample).  After [map] has been called on the stream over
    {1, 2, 3}, that stream is as it was and still yields 1, 2, 3; the mapped
    stream yields 10, 20, 30 from its own copy of the iterator. *)
Lemma C5_counterexample :
  let this := of_container [1; 2; 3] in
  let mapped := fst (Stream.map (W := unit) (pure_fn (fun x => x * 10)) this) in
  let this' := snd (Stream.map (W := unit) (pure_fn (fun x => x * 10)) this) in
  this' = this
  /\ fst (hasNext (W := unit) (iterator this')) = true
  /\ match Stream.emplaceInto [] 5 this' tt with
     | Ok (c, _) _ => c = [1; 2; 3]
     | _ => False
     end
  /\ match Stream.emplaceInto [] 5 mapped tt with
     | Ok (c, _) _ => c = [10; 20; 30]
     | _ => False
     end.
Proof. vm_compute. repeat split; reflexivity. Qed.

(** C5 (amended).  Every chaining call hands the Stream's iterator to the
    new transform by value: the new stream works on a copy and the Stream
    the call was made on is left exactly as it was.  The copy constructors
    of Filter and FlatMap duplicate the buffered element, the buffered
    inner iterator, when and only when one is live. *)
Theorem C5_chaining_copies {W TIt E : Type} `{Iterator W TIt E} (this : Stream TIt) :
  (forall B (l : callable W E B),
      snd (Stream.map l this) = this
      /\ MapIterator.it (iterator (fst (Stream.map l this))) = iterator this)
  /\ (forall l : ref_callable W E,
        snd (Stream.tap l this) = this
        /\ TapIterator.it (iterator (fst (Stream.tap l this))) = iterator this)
  /\ (forall size : int,
        snd (Stream.limit size this) = this
        /\ LimitIterator.it (iterator (fst (Stream.limit size this))) = iterator this)
  /\ (forall n (l : callable W E bool) w,
        match Stream.filter n l this w with
        | Ok (_, this') _ => this' = this
        | _ => True
        end)
  /\ (forall TInnerIt B (J : Iterator W TInnerIt B) n
             (l : callable W E (Stream TInnerIt)) w,
        match Stream.flatMap n l this w with
        | Ok (_, this') _ => this' = this
        | _ => True
        end)
  /\ (forall (x : FilterIterator.t W TIt E) w,
        FilterIterator.copy x w
        = match FilterIterator.hasInit x, FilterIterator.currentValue x with
          | true, Some v => Ok (FilterIterator.set_currentValue (Some v) x) w
          | true, None => Undefined
          | false, _ => Ok (FilterIterator.set_currentValue None x) w
          end)
  /\ (forall TInnerIt B (J : Iterator W TInnerIt B)
             (x : FlatMapIterator.t W TIt E TInnerIt) w,
        FlatMapIterator.copy x w
        = match FlatMapIterator.hasInnerIt x, FlatMapIterator.innerIt x with
          | true, Some i => Ok (FlatMapIterator.set_innerIt (Some i) x) w
          | true, None => Undefined
          | false, _ => Ok (FlatMapIterator.set_innerIt None x) w
          end).
Proof.
  repeat split.
  - intros n l w. unfold Stream.filter, bind.
    destruct (FilterStream n (iterator this) l w); exact I || reflexivity.
  - intros TInnerIt B J n l w. unfold Stream.flatMap, bind.
    destruct (FlatMapStream n (iterator this) l w); exact I || reflexivity.
  - intros [i l hv [|] [v|]] w; reflexivity.
  - intros TInnerIt B J [o l [i|] hv [|]] w; reflexivity.
Qed.

(** C5 (amended), at [map] on the stream over {1, 2}. *)
Lemma C5_witness :
  snd (Stream.map (W := unit) (pure_fn Z.succ) (of_container [1; 2])) = of_container [1; 2]
  /\ MapIterator.it (iterator (fst (Stream.map (W := unit) (pure_fn Z.succ)
                                      (of_container [1; 2]))))
     = iterator (of_container [1; 2]).
Proof.
  destruct (C5_chaining_copies (W := unit) (of_container [1; 2])) as [Hmap _].
  exact (Hmap Z (pure_fn Z.succ)).
Defined.

(** C6.  For every iterator of the library and every state of it,
    [hasNext] leaves the iterator, its upstream chain included, as it was,
    so that asking again gives the same answer. *)
Theorem C6_hasNext_pure (W S E : Type) (I : Iterator W S E) :
  library_iterator W S E I ->
  forall s : S,
    snd (hasNext s) = s /\ hasNext (snd (hasNext s)) = hasNext s.
Proof.
  intros Hlib s.
  pose proof (library_hasNext_pure W S E I Hlib s) as Hp.
  split; [exact Hp|]. rewrite Hp. reflexivity.
Qed.

(** C6, at a chain that holds every transform. *)
Lemma C6_witness :
  match sample_chain tt with
  | Ok s _ =>
      snd (hasNext (W := unit) (iterator s)) = iterator s
      /\ hasNext (snd (hasNext (W := unit) (iterator s))) = hasNext (iterator s)
  | _ => False
  end.
Proof.
  destruct (sample_chain tt) as [s w| | |] eqn:Hs; try discriminate Hs.
  apply (C6_hasNext_pure unit _ _ _).
  repeat constructor.
Defined.

(** C7.  Over a source that yields [l], [reduce(f, initial)] returns the
    left fold of [l] from [initial], the accumulator being updated as
    [accu = f(element, accu)] for each element in the order pulled. *)
Theorem C7_reduce_left_fold {W TIt E V : Type} `{Iterator W TIt E}
  (f : E -> V -> V) (initial : V) (this : Stream TIt)
  (w : W) (l : list E) (s' : TIt) (w' : W) :
  drains passive (iterator this) w l s' w' ->
  eventually (fun n => Stream.reduce (fun x => pure_fn (f x)) initial n this w)
             (Ok (fold_left (fun accu x => f x accu) l initial, {| iterator := s' |}) w').
Proof.
  intros Hd. destruct this as [up].
  exact (pull_drains (fun x a => call (pure_fn (f x)) a) f passive
           (fun x a w => eq_refl) up w l s' w' Hd initial).
Qed.

(** C7, at the example of the specification: the sum of {1, 2, 3} is 6. *)
Lemma C7_witness :
  eventually (fun n => Stream.reduce (fun x => pure_fn (fun acc => acc + x)) 0 n
                         (of_container [1; 2; 3]) tt)
             (Ok (6, {| iterator := cursor_state [1; 2; 3] 3 |}) tt).
Proof.
  exact (C7_reduce_left_fold (fun x acc => acc + x) 0 (of_container [1; 2; 3]) tt
           [1; 2; 3] (cursor_state [1; 2; 3] 3) tt (of_container_yields [1; 2; 3] tt)).
Defined.

(** C8 (counterexample).  [tap] with a function that negates the element
    it is handed, over {4, 5, 6}: the upstream yields 4, 5, 6 and the tap
    stage yields -4, -5, -6; its first [next] returns -4, not the 4 it
    pulled. *)
Lemma C8_counterexample :
  let source := of_container [4; 5; 6] in
  let tapped := fst (Stream.tap (W := unit) (fun x w => (- x, w)) source) in
  match Stream.emplaceInto [] 5 source tt with
  | Ok (c, _) _ => c = [4; 5; 6]
  | _ => False
  end
  /\ match Stream.emplaceInto [] 5 tapped tt with
     | Ok (c, _) _ => c = [-4; -5; -6]
     | _ => False
     end
  /\ match next 1 (iterator source) tt, next 1 (iterator tapped) tt with
     | Ok (x, _) _, Ok (y, _) _ => x = 4 /\ y = -4
     | _, _ => False
     end.
Proof. vm_compute. repeat split; reflexivity. Qed.

(** C8 (amended).  [next] of the tap stage pulls one element from the
    upstream, calls the side-effect function on it and returns the element
    as the call leaves it.  For every function that does not assign to its
    argument (one that takes it by value or const reference) that is the
    element pulled, unchanged: the stage then yields, element for element,
    what its upstream yields to a consumer that applies the function to
    each element, and over an array it yields the array, the function
    having been applied to each element in turn. *)
Theorem C8_tap_passes_through {W TIt E : Type} `{Iterator W TIt E}
  (lambda : callable W E unit) (this : Stream TIt) :
  (forall (l : ref_callable W E) n w,
      next n (iterator (fst (Stream.tap l this))) w
      = match next n (iterator this) w with
        | Ok (x, up') w1 =>
            Ok (fst (l x w1), {| TapIterator.it := up'; TapIterator.lambda := l |})
               (effect_of l x w1)
        | Throw => Throw
        | Undefined => Undefined
        | OutOfFuel => OutOfFuel
        end)
  /\ (forall n w,
        next n (iterator (fst (Stream.tap (by_value lambda) this))) w
        = match next n (iterator this) w with
          | Ok (x, up') w1 =>
              Ok (x, {| TapIterator.it := up'; TapIterator.lambda := by_value lambda |})
                 (effect_of lambda x w1)
          | Throw => Throw
          | Undefined => Undefined
          | OutOfFuel => OutOfFuel
          end)
  /\ (forall w l up' w',
        drains (effect_of lambda) (iterator this) w l up' w' ->
        drains passive (iterator (fst (Stream.tap (by_value lambda) this))) w l
               {| TapIterator.it := up'; TapIterator.lambda := by_value lambda |} w')
  /\ (forall (a : list E) (w : W),
        drains passive
               (iterator (fst (Stream.tap (by_value lambda) (of_container a)))) w a
               {| TapIterator.it := cursor_state a (length a);
                  TapIterator.lambda := by_value lambda |}
               (fold_left (fun w x => effect_of lambda x w) a w)).
Proof.
  split; [|split; [|split]].
  - intros l n w. apply Tap_next_ref.
  - intros n w. apply Tap_next.
  - intros w l up' w' Hd. apply Tap_drains. exact Hd.
  - intros a w. apply (Tap_drains lambda). apply of_container_drains.
Qed.

(** C8 (amended), at a tap that logs the elements of {4, 5, 6}. *)
Lemma C8_witness :
  drains passive
         (iterator (fst (Stream.tap (by_value (fun x log => (tt, log ++ [x])))
                                    (of_container [4; 5; 6]))))
         [] [4; 5; 6]
         {| TapIterator.it := cursor_state [4; 5; 6] 3;
            TapIterator.lambda := by_value (fun x log => (tt, log ++ [x])) |}
         [4; 5; 6].
Proof.
  destruct (C8_tap_passes_through (fun x (log : list Z) => (tt, log ++ [x]))
              (of_container [4; 5; 6])) as (_ & _ & Hseq & _).
  apply Hseq. apply of_container_drains.
Defined.

(** C9.  [estimateRemaining] of a FlatMap iterator is the estimate of its
    outer iterator, whatever the inner iterator slot holds.  For the
    stream over {7} flat-mapped to {7, 8} the outer iterator is used up at
    construction: the estimate is 0 while [hasNext] is true and two
    elements are still to come. *)
Theorem C9_flatMap_estimate_ignores_inner :
  (forall (W S A TInnerIt B : Type) (I : Iterator W S A) (J : Iterator W TInnerIt B)
          (s : FlatMapIterator.t W S A TInnerIt),
      fst (estimateRemaining s) = fst (estimateRemaining (FlatMapIterator.streamIt s)))
  /\ (forall (W S A TInnerIt B : Type) (I : Iterator W S A) (J : Iterator W TInnerIt B)
             (s : FlatMapIterator.t W S A TInnerIt) (c : Detail.TypedStorage TInnerIt),
        fst (estimateRemaining (FlatMapIterator.set_innerIt c s))
        = fst (estimateRemaining s))
  /\ match Stream.flatMap 5 (pure_fn (fun x => of_container [x; x + 1]))
                          (of_container [7]) tt with
     | Ok (fm, _) w =>
         fst (estimateRemaining (W := unit) (iterator fm)) = 0
         /\ fst (hasNext (W := unit) (iterator fm)) = true
         /\ match Stream.emplaceInto [] 5 fm w with
            | Ok (c, _) _ => c = [7; 8]
            | _ => False
            end
     | _ => False
     end.
Proof.
  split; [|split].
  - intros. simpl. unfold FlatMapIterator.estimateRemaining.
    destruct (estimateRemaining (FlatMapIterator.streamIt s)); reflexivity.
  - intros. simpl. unfold FlatMapIterator.estimateRemaining. simpl.
    destruct (estimateRemaining (FlatMapIterator.streamIt s)); reflexivity.
  - vm_compute. repeat split; reflexivity.
Qed.

(** C10.  For every upstream iterator and every bound [size <= 0],
    [limit(size)] is empty: [hasNext] answers false from construction
    without asking the upstream, and every terminal operation returns at
    once, leaving the stream, its upstream included, as constructed: no
    element is pulled. *)
Theorem C10_limit_nonpositive_empty {W TIt E : Type} `{Iterator W TIt E}
  (this : Stream TIt) (size : int) :
  size <= 0 ->
  let limited := fst (Stream.limit size this) in
  LimitIterator.it (iterator limited) = iterator this
  /\ hasNext (W := W) (iterator limited) = (false, iterator limited)
  /\ (forall w : W, drains passive (iterator limited) w [] (iterator limited) w)
  /\ (forall A (body : E -> A -> M W A) n a w,
        Stream.pull body (S n) a limited w = Ok (a, limited) w)
  /\ (forall f n w, Stream.allMatch f (S n) limited w = Ok (true, limited) w)
  /\ (forall f n w, Stream.anyMatch f (S n) limited w = Ok (false, limited) w).
Proof.
  intros Hsize limited.
  assert (Hh : hasNext (W := W) (iterator limited) = (false, iterator limited)).
  { apply Limit_hasNext_reached. simpl. lia. }
  split; [reflexivity|]. split; [exact Hh|]. split; [|split; [|split]].
  - intros w. apply drains_nil. exact Hh.
  - intros A body n a w. unfold limited in *. simpl in Hh |- *.
    rewrite Hh. reflexivity.
  - intros f n w. unfold limited in *. simpl in Hh |- *.
    rewrite Hh. reflexivity.
  - intros f n w. unfold limited in *. simpl in Hh |- *.
    rewrite Hh. reflexivity.
Qed.

(** C10, at [limit(-3)] over {1, 2}. *)
Lemma C10_witness :
  let limited := fst (Stream.limit (-3) (of_container [1; 2])) in
  LimitIterator.it (iterator limited) = iterator (of_container [1; 2])
  /\ hasNext (W := unit) (iterator limited) = (false, iterator limited)
  /\ (forall w : unit, drains passive (iterator limited) w [] (iterator limited) w)
  /\ (forall A (body : Z -> A -> M unit A) n a w,
        Stream.pull body (S n) a limited w = Ok (a, limited) w)
  /\ (forall f n (w : unit), Stream.allMatch f (S n) limited w = Ok (true, limited) w)
  /\ (forall f n (w : unit), Stream.anyMatch f (S n) limited w = Ok (false, limited) w).
Proof.
  apply (C10_limit_nonpositive_empty (W := unit) (of_container [1; 2]) (-3)). lia.
Defined.

(** * Further properties of the library *)

(** ** Map *)

Section MapSpec.
Context {W TStreamIt A B : Type} `{Iterator W TStreamIt A}.
Variable f : A -> B.

Lemma Map_drains :
  forall up w l up' w',
    drains passive up w l up' w' ->
    drains passive {| MapIterator.it := up; MapIterator.lambda := pure_fn f |} w
           (map f l)
           {| MapIterator.it := up'; MapIterator.lambda := pure_fn f |} w'.
Proof.
  intros up w l up' w' Hd.
  induction Hd as [s s' w Hn | s s1 w x s2 w2 l s3 w3 Hn Hx Hd IH].
  - apply drains_nil. simpl. unfold MapIterator.hasNext. simpl.
    rewrite Hn. reflexivity.
  - simpl map.
    eapply drains_cons
      with (s1 := {| MapIterator.it := s1; MapIterator.lambda := pure_fn f |});
      [| |exact IH].
    + simpl. unfold MapIterator.hasNext. simpl. rewrite Hn. reflexivity.
    + eapply ev_bind; [exact Hx| |apply ev_now; reflexivity].
      intros n Hnx. simpl. unfold MapIterator.next, bind. simpl.
      rewrite Hnx. reflexivity.
Qed.
End MapSpec.

(** X1.  Over a source that yields [l], [map(f)] yields [f] applied to each
    element of [l], in order, and [count()] returns the same number after
    mapping as before. *)
Theorem X1_map_yields_mapped {W TIt E B : Type} `{Iterator W TIt E}
  (f : E -> B) (this : Stream TIt) (w : W) (l : list E) (s' : TIt) (w' : W) :
  drains passive (iterator this) w l s' w' ->
  drains passive (iterator (fst (Stream.map (pure_fn f) this))) w (map f l)
         {| MapIterator.it := s'; MapIterator.lambda := pure_fn f |} w'
  /\ eventually (fun n => Stream.count n (fst (Stream.map (pure_fn f) this)) w)
                (Ok (wrap (Z.of_nat (length l)),
                     {| iterator := {| MapIterator.it := s';
                                       MapIterator.lambda := pure_fn f |} |}) w')
  /\ eventually (fun n => Stream.count n this w)
                (Ok (wrap (Z.of_nat (length l)), {| iterator := s' |}) w').
Proof.
  intros Hd. destruct this as [up]. simpl in Hd.
  pose proof (Map_drains f up w l s' w' Hd) as Hm.
  split; [exact Hm|]. split.
  - pose proof (pull_drains (fun (_ : B) ctr => ret (wrap (ctr + 1)))
                  (fun _ ctr => wrap (ctr + 1)) passive
                  (fun x a w => eq_refl) _ w (map f l) _ w' Hm 0) as Hc.
    cbv beta in Hc. rewrite count_fold_0, length_map in Hc. exact Hc.
  - pose proof (pull_drains (fun (_ : E) ctr => ret (wrap (ctr + 1)))
                  (fun _ ctr => wrap (ctr + 1)) passive
                  (fun x a w => eq_refl) up w l s' w' Hd 0) as Hc.
    cbv beta in Hc. rewrite count_fold_0 in Hc. exact Hc.
Qed.

Lemma X1_witness :
  drains passive
         (iterator (fst (Stream.map (pure_fn (fun x => x * 10)) (of_container [1; 2; 3]))))
         tt [10; 20; 30]
         {| MapIterator.it := cursor_state [1; 2; 3] 3;
            MapIterator.lambda := pure_fn (fun x => x * 10) |} tt
  /\ eventually (fun n => Stream.count n
                            (fst (Stream.map (pure_fn (fun x => x * 10))
                                             (of_container [1; 2; 3]))) tt)
                (Ok (3, {| iterator := {| MapIterator.it := cursor_state [1; 2; 3] 3;
                                          MapIterator.lambda := pure_fn (fun x => x * 10) |} |})
                    tt)
  /\ eventually (fun n => Stream.count n (of_container [1; 2; 3]) tt)
                (Ok (3, {| iterator := cursor_state [1; 2; 3] 3 |}) tt).
Proof.
  exact (X1_map_yields_mapped (fun x => x * 10) (of_container [1; 2; 3]) tt [1; 2; 3]
           (cursor_state [1; 2; 3] 3) tt (of_container_yields [1; 2; 3] tt)).
Defined.

(** ** allMatch and anyMatch *)

Section MatchSpec.
Context {W TIt E : Type} `{Iterator W TIt E}.
Variable f : E -> bool.

Lemma allMatch_drains :
  forall s w l s' w',
    drains passive s w l s' w' ->
    (forallb f l = true ->
     eventually (fun n => Stream.allMatch (pure_fn f) n {| iterator := s |} w)
                (Ok (true, {| iterator := s' |}) w'))
    /\ (forall l1 x l2,
           l = l1 ++ x :: l2 -> forallb f l1 = true -> f x = false ->
           exists s1 w1,
             eventually (fun n => Stream.allMatch (pure_fn f) n {| iterator := s |} w)
                        (Ok (false, {| iterator := s1 |}) w1)
             /\ drains passive s1 w1 l2 s' w').
Proof.
  intros s w l s' w' Hd.
  induction Hd as [s s' w Hn | s s1 w x s2 w2 l s3 w3 Hn Hx Hd [IHt IHf]].
  - split.
    + intros _. eapply ev_S; [|apply ev_now; reflexivity].
      intros n. simpl. rewrite Hn. reflexivity.
    + intros [|y l1] x l2 Hl; discriminate Hl.
  - change (passive x w2) with w2 in *. split.
    + simpl. intros Hall. apply andb_prop in Hall. destruct Hall as [Hfx Hall].
      eapply ev_S; [intros n; simpl; rewrite Hn; reflexivity|].
      eapply ev_bind; [exact Hx| |exact (IHt Hall)].
      intros n Hnx. unfold bind. rewrite Hnx. simpl.
      unfold call, pure_fn. rewrite Hfx. reflexivity.
    + intros [|y l1] x0 l2 Hl Hall Hfx; simpl in Hl; inversion Hl; subst.
      * exists s2, w2. split; [|exact Hd].
        eapply ev_S; [intros n; simpl; rewrite Hn; reflexivity|].
        eapply ev_bind; [exact Hx| |apply ev_now; reflexivity].
        intros n Hnx. unfold bind. rewrite Hnx. simpl.
        unfold call, pure_fn. rewrite Hfx. reflexivity.
      * simpl in Hall. apply andb_prop in Hall. destruct Hall as [Hfy Hall].
        destruct (IHf l1 x0 l2 eq_refl Hall Hfx) as (sa & wa & Hev & Hrest).
        exists sa, wa. split; [|exact Hrest].
        eapply ev_S; [intros n; simpl; rewrite Hn; reflexivity|].
        eapply ev_bind; [exact Hx| |exact Hev].
        intros n Hnx. unfold bind. rewrite Hnx. simpl.
        unfold call, pure_fn. rewrite Hfy. reflexivity.
Qed.

Lemma anyMatch_drains :
  forall s w l s' w',
    drains passive s w l s' w' ->
    (existsb f l = false ->
     eventually (fun n => Stream.anyMatch (pure_fn f) n {| iterator := s |} w)
                (Ok (false, {| iterator := s' |}) w'))
    /\ (forall l1 x l2,
           l = l1 ++ x :: l2 -> existsb f l1 = false -> f x = true ->
           exists s1 w1,
             eventually (fun n => Stream.anyMatch (pure_fn f) n {| iterator := s |} w)
                        (Ok (true, {| iterator := s1 |}) w1)
             /\ drains passive s1 w1 l2 s' w').
Proof.
  intros s w l s' w' Hd.
  induction Hd as [s s' w Hn | s s1 w x s2 w2 l s3 w3 Hn Hx Hd [IHt IHf]].
  - split.
    + intros _. eapply ev_S; [|apply ev_now; reflexivity].
      intros n. simpl. rewrite Hn. reflexivity.
    + intros [|y l1] x l2 Hl; discriminate Hl.
  - change (passive x w2) with w2 in *. split.
    + simpl. intros Hnone. apply orb_false_elim in Hnone. destruct Hnone as [Hfx Hnone].
      eapply ev_S; [intros n; simpl; rewrite Hn; reflexivity|].
      eapply ev_bind; [exact Hx| |exact (IHt Hnone)].
      intros n Hnx. unfold bind. rewrite Hnx. simpl.
      unfold call, pure_fn. rewrite Hfx. reflexivity.
    + intros [|y l1] x0 l2 Hl Hnone Hfx; simpl in Hl; inversion Hl; subst.
      * exists s2, w2. split; [|exact Hd].
        eapply ev_S; [intros n; simpl; rewrite Hn; reflexivity|].
        eapply ev_bind; [exact Hx| |apply ev_now; reflexivity].
        intros n Hnx. unfold bind. rewrite Hnx. simpl.
        unfold call, pure_fn. rewrite Hfx. reflexivity.
      * simpl in Hnone. apply orb_false_elim in Hnone. destruct Hnone as [Hfy Hnone].
        destruct (IHf l1 x0 l2 eq_refl Hnone Hfx) as (sa & wa & Hev & Hrest).
        exists sa, wa. split; [|exact Hrest].
        eapply ev_S; [intros n; simpl; rewrite Hn; reflexivity|].
        eapply ev_bind; [exact Hx| |exact Hev].
        intros n Hnx. unfold bind. rewrite Hnx. simpl.
        unfold call, pure_fn. rewrite Hfy. reflexivity.
Qed.
End MatchSpec.

(** X2.  [allMatch(f)] returns true when every element satisfies [f], having
    drained the stream; at the first element that does not, it returns
    false at once, and the elements after it are still in the stream. *)
Theorem X2_allMatch_short_circuits {W TIt E : Type} `{Iterator W TIt E}
  (f : E -> bool) (this : Stream TIt) (w : W) (l : list E) (s' : TIt) (w' : W) :
  drains passive (iterator this) w l s' w' ->
  (forallb f l = true ->
   eventually (fun n => Stream.allMatch (pure_fn f) n this w)
              (Ok (true, {| iterator := s' |}) w'))
  /\ (forall l1 x l2,
         l = l1 ++ x :: l2 -> forallb f l1 = true -> f x = false ->
         exists s1 w1,
           eventually (fun n => Stream.allMatch (pure_fn f) n this w)
                      (Ok (false, {| iterator := s1 |}) w1)
           /\ drains passive s1 w1 l2 s' w').
Proof.
  intros Hd. destruct this as [up]. exact (allMatch_drains f up w l s' w' Hd).
Qed.

Lemma X2_witness :
  eventually (fun n => Stream.allMatch (pure_fn (fun x => 0 <? x)) n
                         (of_container [1; 2; 3]) tt)
             (Ok (true, {| iterator := cursor_state [1; 2; 3] 3 |}) tt)
  /\ exists s1 w1,
       eventually (fun n => Stream.allMatch (pure_fn (fun x => x <? 2)) n
                              (of_container [1; 2; 3]) tt)
                  (Ok (false, {| iterator := s1 |}) w1)
       /\ drains passive s1 w1 [3] (cursor_state [1; 2; 3] 3) tt.
Proof.
  split.
  - apply (X2_allMatch_short_circuits (fun x => 0 <? x) (of_container [1; 2; 3]) tt
             [1; 2; 3] (cursor_state [1; 2; 3] 3) tt (of_container_yields [1; 2; 3] tt)).
    reflexivity.
  - apply (X2_allMatch_short_circuits (fun x => x <? 2) (of_container [1; 2; 3]) tt
             [1; 2; 3] (cursor_state [1; 2; 3] 3) tt (of_container_yields [1; 2; 3] tt))
      with (l1 := [1]) (x := 2); reflexivity.
Defined.

(** X3.  [anyMatch(f)] returns false when no element satisfies [f], having
    drained the stream; at the first element that does, it returns true at
    once, and the elements after it are still in the stream. *)
Theorem X3_anyMatch_short_circuits {W TIt E : Type} `{Iterator W TIt E}
  (f : E -> bool) (this : Stream TIt) (w : W) (l : list E) (s' : TIt) (w' : W) :
  drains passive (iterator this) w l s' w' ->
  (existsb f l = false ->
   eventually (fun n => Stream.anyMatch (pure_fn f) n this w)
              (Ok (false, {| iterator := s' |}) w'))
  /\ (forall l1 x l2,
         l = l1 ++ x :: l2 -> existsb f l1 = false -> f x = true ->
         exists s1 w1,
           eventually (fun n => Stream.anyMatch (pure_fn f) n this w)
                      (Ok (true, {| iterator := s1 |}) w1)
           /\ drains passive s1 w1 l2 s' w').
Proof.
  intros Hd. destruct this as [up]. exact (anyMatch_drains f up w l s' w' Hd).
Qed.

Lemma X3_witness :
  eventually (fun n => Stream.anyMatch (pure_fn (fun x => 5 <? x)) n
                         (of_container [1; 2; 3]) tt)
             (Ok (false, {| iterator := cursor_state [1; 2; 3] 3 |}) tt)
  /\ exists s1 w1,
       eventually (fun n => Stream.anyMatch (pure_fn (fun x => 1 <? x)) n
                              (of_container [1; 2; 3]) tt)
                  (Ok (true, {| iterator := s1 |}) w1)
       /\ drains passive s1 w1 [3] (cursor_state [1; 2; 3] 3) tt.
Proof.
  split.
  - apply (X3_anyMatch_short_circuits (fun x => 5 <? x) (of_container [1; 2; 3]) tt
             [1; 2; 3] (cursor_state [1; 2; 3] 3) tt (of_container_yields [1; 2; 3] tt)).
    reflexivity.
  - apply (X3_anyMatch_short_circuits (fun x => 1 <? x) (of_container [1; 2; 3]) tt
             [1; 2; 3] (cursor_state [1; 2; 3] 3) tt (of_container_yields [1; 2; 3] tt))
      with (l1 := [1]) (x := 2); reflexivity.
Defined.

(** ** forEach and emplaceInto *)

Lemma call_unit {W E} (f : callable W E unit) (x : E) (w : W) :
  call f x w = Ok tt (effect_of f x w).
Proof. unfold call, effect_of. destruct (f x w) as [[] w1]. reflexivity. Qed.

Lemma fold_left_const {A E} (l : list E) (a : A) :
  fold_left (fun (u : A) (_ : E) => a) l a = a.
Proof. induction l as [|x l IH]; simpl; [reflexivity|exact IH]. Qed.

Lemma fold_left_snoc {E} (l : list E) :
  forall c, fold_left (fun c x => c ++ [x]) l c = c ++ l.
Proof.
  induction l as [|x l IH]; intros c; simpl.
  - rewrite app_nil_r. reflexivity.
  - rewrite IH, <- app_assoc. reflexivity.
Qed.

(** X4.  [forEach(f)] calls [f] on every element in the order pulled, and
    leaves the ambient state that [tap(f)] followed by [sink()] leaves. *)
Theorem X4_forEach_in_pull_order {W TIt E : Type} `{Iterator W TIt E}
  (f : callable W E unit) (this : Stream TIt) (w : W) (l : list E) (s' : TIt) (w' : W) :
  drains (effect_of f) (iterator this) w l s' w' ->
  eventually (fun n => Stream.forEach f n this w) (Ok (tt, {| iterator := s' |}) w')
  /\ eventually (fun n => Stream.sink n (fst (Stream.tap (by_value f) this)) w)
                (Ok (tt, {| iterator := {| TapIterator.it := s';
                                           TapIterator.lambda := by_value f |} |}) w').
Proof.
  intros Hd. destruct this as [up]. simpl in Hd. split.
  - pose proof (pull_drains (fun x (_ : unit) => call f x) (fun _ _ => tt)
                  (effect_of f) (fun x a w => call_unit f x w) up w l s' w' Hd tt) as Hp.
    cbv beta in Hp. rewrite fold_left_const in Hp. exact Hp.
  - pose proof (pull_drains (fun (_ : E) (u : unit) => ret u) (fun _ u => u) passive
                  (fun x a w => eq_refl) _ w l _ w' (Tap_drains f up w l s' w' Hd) tt)
      as Hp.
    cbv beta in Hp.
    replace (fold_left (fun (a : unit) (_ : E) => a) l tt) with tt in Hp
      by (clear; induction l; simpl; auto).
    exact Hp.
Qed.

Lemma X4_witness :
  eventually (fun n => Stream.forEach (fun x log => (tt, log ++ [x])) n
                         (of_container [4; 5; 6]) [])
             (Ok (tt, {| iterator := cursor_state [4; 5; 6] 3 |}) [4; 5; 6])
  /\ eventually (fun n => Stream.sink n
                            (fst (Stream.tap (by_value (fun x log => (tt, log ++ [x])))
                                             (of_container [4; 5; 6]))) [])
                (Ok (tt, {| iterator := {| TapIterator.it := cursor_state [4; 5; 6] 3;
                                           TapIterator.lambda :=
                                             by_value (fun x log => (tt, log ++ [x])) |} |})
                    [4; 5; 6]).
Proof.
  exact (X4_forEach_in_pull_order (fun x (log : list Z) => (tt, log ++ [x]))
           (of_container [4; 5; 6]) [] [4; 5; 6] (cursor_state [4; 5; 6] 3) [4; 5; 6]
           (of_container_drains (effect_of (fun x (log : list Z) => (tt, log ++ [x])))
              [4; 5; 6] [])).
Defined.

(** X5.  [emplaceInto(cont)] appends the elements of the stream, in order,
    behind what the container already holds. *)
Theorem X5_emplaceInto_appends {W TIt E : Type} `{Iterator W TIt E}
  (cont : list E) (this : Stream TIt) (w : W) (l : list E) (s' : TIt) (w' : W) :
  drains passive (iterator this) w l s' w' ->
  eventually (fun n => Stream.emplaceInto cont n this w)
             (Ok (cont ++ l, {| iterator := s' |}) w').
Proof.
  intros Hd. destruct this as [up]. simpl in Hd.
  pose proof (pull_drains (fun x (c : list E) => ret (c ++ [x])) (fun x c => c ++ [x])
                passive (fun x a w => eq_refl) up w l s' w' Hd cont) as Hp.
  cbv beta in Hp. rewrite fold_left_snoc in Hp. exact Hp.
Qed.

Lemma X5_witness :
  eventually (fun n => Stream.emplaceInto [0] n (of_container [1; 2]) tt)
             (Ok ([0; 1; 2], {| iterator := cursor_state [1; 2] 2 |}) tt).
Proof.
  exact (X5_emplaceInto_appends [0] (of_container [1; 2]) tt [1; 2]
           (cursor_state [1; 2] 2) tt (of_container_yields [1; 2] tt)).
Defined.

(** ** The range source *)

Lemma range_drains {W T} (g : T -> W -> W) (a : list T) :
  forall (m b e : nat) (w : W),
    e = (b + m)%nat -> (e <= length a)%nat ->
    drains g
           (iterator (of_range {| arr := a; off := Z.of_nat b |}
                               {| arr := a; off := Z.of_nat e |})) w
           (firstn m (skipn b a))
           (iterator (of_range {| arr := a; off := Z.of_nat e |}
                               {| arr := a; off := Z.of_nat e |}))
           (fold_left (fun w x => g x w) (firstn m (skipn b a)) w).
Proof.
  induction m as [|m IH]; intros b e w He Hle.
  - rewrite Nat.add_0_r in He. subst e. simpl. apply drains_nil.
    simpl. unfold StreamIterator.hasNext, ptr_neq. simpl.
    rewrite Z.eqb_refl. reflexivity.
  - destruct (skipn_nth_error a b) as [x [Hx Hs]]; [lia|].
    rewrite Hs. simpl.
    eapply drains_cons; [| |apply (IH (S b) e); lia].
    + simpl. unfold StreamIterator.hasNext, ptr_neq. simpl.
      destruct (Z.eqb_spec (Z.of_nat b) (Z.of_nat e)); [lia|reflexivity].
    + apply ev_now. intros n. simpl.
      unfold StreamIterator.next, bind, deref, ptr_incr. simpl.
      destruct (Z.leb_spec 0 (Z.of_nat b)); [|lia].
      rewrite Nat2Z.id, Hx. unfold ret, of_range, VectorStream. simpl.
      replace (Z.of_nat b + 1) with (Z.of_nat (S b)) by lia. reflexivity.
Qed.

Lemma StreamIterator_drains_length {W T} (g : T -> W -> W) :
  forall (s : StreamIterator.t T) w l s' w',
    drains g s w l s' w' ->
    ptr_diff (StreamIterator.end_ s) (StreamIterator.current s) = Z.of_nat (length l).
Proof.
  intros s w l s' w' Hd.
  induction Hd as [s s' w Hn | s s1 w x s2 w2 l s3 w3 Hn Hx Hd IH].
  - simpl in Hn. unfold StreamIterator.hasNext, ptr_neq in Hn.
    injection Hn as Hb _. apply negb_false_iff in Hb. apply Z.eqb_eq in Hb.
    unfold ptr_diff. simpl. lia.
  - simpl in Hn. unfold StreamIterator.hasNext in Hn. inversion Hn; subst s1.
    destruct Hx as [N HN]. specialize (HN N (Nat.le_refl N)).
    simpl in HN. unfold StreamIterator.next, bind in HN.
    destruct (deref (StreamIterator.current s) w) as [v w1| | |]; try discriminate.
    unfold ret in HN. inversion HN; subst.
    unfold ptr_diff, ptr_incr in *. simpl in IH.
    cbn [length]. lia.
Qed.

(** X6.  The stream over a range [begin, end) inside an array that is not
    written to while the stream is pulled yields the elements from offset
    begin up to, not including, offset end, in order. *)
Theorem X6_of_range_yields_slice {W T : Type} (a : list T) (b e : nat) (w : W) :
  (b <= e)%nat -> (e <= length a)%nat ->
  drains passive
         (iterator (of_range {| arr := a; off := Z.of_nat b |}
                             {| arr := a; off := Z.of_nat e |})) w
         (firstn (e - b) (skipn b a))
         (iterator (of_range {| arr := a; off := Z.of_nat e |}
                             {| arr := a; off := Z.of_nat e |})) w.
Proof.
  intros Hbe Hle.
  pose proof (range_drains (@passive W T) a (e - b) b e w ltac:(lia) Hle) as Hd.
  rewrite fold_left_passive in Hd. exact Hd.
Qed.

Lemma X6_witness :
  drains passive
         (iterator (of_range {| arr := [5; 6; 7; 8; 9]; off := 1 |}
                             {| arr := [5; 6; 7; 8; 9]; off := 4 |})) tt
         [6; 7; 8]
         (iterator (of_range {| arr := [5; 6; 7; 8; 9]; off := 4 |}
                             {| arr := [5; 6; 7; 8; 9]; off := 4 |})) tt.
Proof.
  apply (X6_of_range_yields_slice [5; 6; 7; 8; 9] 1 4 tt); simpl; lia.
Defined.

(** X7.  [estimateRemaining] of a [StreamIterator] is exact: it is the
    number of elements the iterator still yields (as long as that number
    is an [int]), and asking leaves the iterator as it was. *)
Theorem X7_StreamIterator_estimate_exact {W T : Type} (g : T -> W -> W)
  (s : StreamIterator.t T) (w : W) (l : list T) (s' : StreamIterator.t T) (w' : W) :
  drains g s w l s' w' ->
  in_int (Z.of_nat (length l)) ->
  estimateRemaining (W := W) s = (Z.of_nat (length l), s).
Proof.
  intros Hd Hlen. simpl. unfold StreamIterator.estimateRemaining.
  rewrite (StreamIterator_drains_length g s w l s' w' Hd).
  rewrite wrap_id by exact Hlen. reflexivity.
Qed.

Lemma X7_witness :
  estimateRemaining (W := unit) (cursor_state [7; 8; 9] 1) = (2, cursor_state [7; 8; 9] 1).
Proof.
  apply (X7_StreamIterator_estimate_exact passive (cursor_state [7; 8; 9] 1) tt [8; 9]
           (cursor_state [7; 8; 9] 3) tt).
  - exact (StreamIterator_drains passive [7; 8; 9] 1 tt ltac:(simpl; lia)).
  - unfold in_int. simpl. lia.
Defined.

(** ** A range whose begin lies past its end *)

Section ReversedRange.
Context {W T : Type}.
Variables (a : list T) (e : nat).



End ReversedRange.



(** ** Limit leaves the rest of its upstream *)

Section LimitRest.
Context {W TStreamIt A : Type} `{Iterator W TStreamIt A}.

Lemma Limit_drains_rest :
  forall up w l up' w',
    drains passive up w l up' w' ->
    forall size idx : int,
      0 <= idx -> in_int size ->
      exists sf wf,
        drains passive
               {| LimitIterator.it := up; LimitIterator.size := size;
                  LimitIterator.idx := idx |} w
               (firstn (Z.to_nat (size - idx)) l) sf wf
        /\ ((Z.to_nat (size - idx) <= length l)%nat ->
            drains passive (LimitIterator.it sf) wf
                   (skipn (Z.to_nat (size - idx)) l) up' w')
        /\ ((length l < Z.to_nat (size - idx))%nat ->
            LimitIterator.it sf = up' /\ wf = w').
Proof.
  intros up w l up' w' Hd.
  induction Hd as [s s' w Hn | s s1 w x s2 w2 l s3 w3 Hn Hx Hd IH];
    intros size idx Hidx Hsize.
  - rewrite firstn_nil.
    destruct (idx <? size) eqn:Hlt.
    + exists {| LimitIterator.it := s'; LimitIterator.size := size;
                LimitIterator.idx := idx |}, w.
      apply Z.ltb_lt in Hlt.
      split; [|split].
      * apply drains_nil. rewrite Limit_hasNext_below by (simpl; lia).
        simpl. rewrite Hn. reflexivity.
      * simpl. lia.
      * intros _. split; reflexivity.
    + exists {| LimitIterator.it := s; LimitIterator.size := size;
                LimitIterator.idx := idx |}, w.
      apply Z.ltb_ge in Hlt.
      split; [|split].
      * apply drains_nil. apply Limit_hasNext_reached. simpl. lia.
      * intros _. rewrite skipn_nil. simpl. apply drains_nil. exact Hn.
      * simpl. lia.
  - change (passive x w2) with w2 in *.
    destruct (Z.ltb_spec idx size) as [Hlt|Hge].
    + replace (Z.to_nat (size - idx)) with (S (Z.to_nat (size - (idx + 1)))) by lia.
      destruct (IH size (idx + 1)) as (sf & wf & Hl & Hrest & Hend);
        [lia|exact Hsize|].
      exists sf, wf. split; [|split].
      * simpl firstn. eapply drains_cons; [| |exact Hl].
        -- rewrite Limit_hasNext_below by (simpl; lia). simpl. rewrite Hn. reflexivity.
        -- eapply ev_bind; [exact Hx| |apply ev_now; reflexivity].
           intros n Hnx. simpl. unfold LimitIterator.next, bind. simpl.
           rewrite Hnx. unfold LimitIterator.set_it, ret. simpl.
           rewrite wrap_id by (unfold in_int in *; lia). reflexivity.
      * intros Hk. simpl in Hk. simpl skipn. apply Hrest. lia.
      * intros Hk. simpl in Hk. apply Hend. lia.
    + replace (Z.to_nat (size - idx)) with O by lia. simpl.
      exists {| LimitIterator.it := s; LimitIterator.size := size;
                LimitIterator.idx := idx |}, w.
      split; [|split].
      * apply drains_nil. apply Limit_hasNext_reached. simpl. lia.
      * intros _. simpl. eapply drains_cons; [exact Hn|exact Hx|exact Hd].
      * lia.
Qed.
End LimitRest.

(** X9.  [limit(n)] takes from its upstream only what it yields: when the
    upstream has at least n elements, the upstream held by the drained
    Limit iterator still yields the others; when it has fewer, the
    upstream is drained. *)
Theorem X9_limit_leaves_rest {W TIt E : Type} `{Iterator W TIt E}
  (this : Stream TIt) (n : int) (w : W) (l : list E) (s' : TIt) (w' : W) :
  in_int n ->
  drains passive (iterator this) w l s' w' ->
  exists sf wf,
    drains passive (iterator (fst (Stream.limit n this))) w
           (firstn (Z.to_nat n) l) sf wf
    /\ ((Z.to_nat n <= length l)%nat ->
        drains passive (LimitIterator.it sf) wf (skipn (Z.to_nat n) l) s' w')
    /\ ((length l < Z.to_nat n)%nat -> LimitIterator.it sf = s' /\ wf = w').
Proof.
  intros Hn Hd. destruct this as [up]. simpl in *.
  destruct (Limit_drains_rest up w l s' w' Hd n 0) as (sf & wf & Hl); [lia|exact Hn|].
  rewrite Z.sub_0_r in Hl. exists sf, wf. exact Hl.
Qed.

Lemma X9_witness :
  exists sf wf,
    drains passive (iterator (fst (Stream.limit 2 (of_container [7; 8; 9])))) tt
           [7; 8] sf wf
    /\ ((2 <= 3)%nat ->
        drains passive (LimitIterator.it sf) wf [9] (cursor_state [7; 8; 9] 3) tt)
    /\ ((3 < 2)%nat -> LimitIterator.it sf = cursor_state [7; 8; 9] 3 /\ wf = tt).
Proof.
  refine (X9_limit_leaves_rest (of_container [7; 8; 9]) 2 tt [7; 8; 9]
            (cursor_state [7; 8; 9] 3) tt _ (of_container_yields [7; 8; 9] tt)).
  unfold in_int. lia.
Defined.

(** X10.  Over a range source, [estimateRemaining] of a fresh [limit(n)] is
    the smaller of the number of source elements and n: the number of
    elements the stream yields when n is not negative, and n itself, a
    negative estimate, when n is negative. *)
Theorem X10_limit_estimate_over_range {W T : Type}
  (up : StreamIterator.t T) (n : int) (w : W) (l : list T)
  (up' : StreamIterator.t T) (w' : W) :
  drains passive up w l up' w' ->
  in_int (Z.of_nat (length l)) -> in_int n ->
  fst (estimateRemaining (W := W) (LimitIterator.new up n))
  = Z.min (Z.of_nat (length l)) n
  /\ (0 <= n ->
      fst (estimateRemaining (W := W) (LimitIterator.new up n))
      = Z.of_nat (length (firstn (Z.to_nat n) l))).
Proof.
  intros Hd Hlen Hn.
  assert (Hest : fst (estimateRemaining (W := W) (LimitIterator.new up n))
                 = Z.min (Z.of_nat (length l)) n).
  { simpl. unfold LimitIterator.estimateRemaining. simpl.
    unfold StreamIterator.estimateRemaining.
    rewrite (StreamIterator_drains_length passive up w l up' w' Hd).
    rewrite (wrap_id (Z.of_nat (length l))) by exact Hlen. simpl.
    rewrite Z.sub_0_r, (wrap_id n) by exact Hn.
    destruct (Z.ltb_spec (Z.of_nat (length l)) n); lia. }
  split; [exact Hest|].
  intros Hpos. rewrite Hest, length_firstn. lia.
Qed.

Lemma X10_witness :
  fst (estimateRemaining (W := unit) (LimitIterator.new (cursor_state [7; 8; 9] 0) (-2)))
  = -2
  /\ fst (estimateRemaining (W := unit) (LimitIterator.new (cursor_state [7; 8; 9] 0) 2))
     = Z.of_nat (length [7; 8]).
Proof.
  split.
  - apply (X10_limit_estimate_over_range (cursor_state [7; 8; 9] 0) (-2) tt [7; 8; 9]
             (cursor_state [7; 8; 9] 3) tt).
    + exact (of_container_yields [7; 8; 9] tt).
    + unfold in_int. simpl. lia.
    + unfold in_int. lia.
  - apply (X10_limit_estimate_over_range (cursor_state [7; 8; 9] 0) 2 tt [7; 8; 9]
             (cursor_state [7; 8; 9] 3) tt).
    + exact (of_container_yields [7; 8; 9] tt).
    + unfold in_int. simpl. lia.
    + unfold in_int. lia.
    + lia.
Defined.

(** ** Filter looks ahead *)

Section FilterLookahead.
Context {W TStreamIt A : Type} `{Iterator W TStreamIt A}.
Variable f : A -> bool.

Local Abbreviation fmk := (@FilterIterator.Build_t W TStreamIt A).

Lemma Filter_moveNext_loop_no_match :
  forall up w l up' w',
    drains passive up w l up' w' ->
    forallb (fun y => negb (f y)) l = true ->
    forall hi cv,
      eventually (fun n => FilterIterator.moveNext_loop n (fmk up (pure_fn f) false hi cv) w)
                 (Ok (fmk up' (pure_fn f) false hi cv) w').
Proof.
  intros up w l up' w' Hd.
  induction Hd as [s s' w Hn | s s1 w x s2 w2 l s3 w3 Hn Hx Hd IH];
    intros Hall hi cv.
  - eapply ev_S; [|apply ev_now; reflexivity].
    intros n. simpl. rewrite Hn. reflexivity.
  - change (passive x w2) with w2 in *. simpl in Hall.
    apply andb_prop in Hall. destruct Hall as [Hfx Hall].
    apply negb_true_iff in Hfx.
    eapply ev_S; [intros n; simpl; rewrite Hn; reflexivity|].
    eapply ev_bind; [exact Hx| |exact (IH Hall hi cv)].
    intros n Hnx. unfold bind. rewrite Hnx. simpl.
    unfold call, pure_fn. rewrite Hfx. reflexivity.
Qed.

Lemma Filter_moveNext_loop_first_match :
  forall l1 up w x l2 up' w',
    drains passive up w (l1 ++ x :: l2) up' w' ->
    forallb (fun y => negb (f y)) l1 = true ->
    f x = true ->
    forall hi cv,
      (hi = true -> cv <> None) ->
      exists up1 w1,
        eventually (fun n => FilterIterator.moveNext_loop n
                               (fmk up (pure_fn f) false hi cv) w)
                   (Ok (fmk up1 (pure_fn f) true true (Some x)) w1)
        /\ drains passive up1 w1 l2 up' w'.
Proof.
  induction l1 as [|y l1 IH]; intros up w x l2 up' w' Hd Hall Hfx hi cv Hwf;
    simpl in Hd;
    inversion Hd as [|s s1 w0 x0 s2 w2 l s3 w3 Hn Hx Hrest]; subst.
  - change (passive x w2) with w2 in *.
    exists s2, w2. split; [|exact Hrest].
    eapply ev_S; [intros n; simpl; rewrite Hn; reflexivity|].
    eapply ev_bind; [exact Hx| |apply ev_now; reflexivity].
    intros n Hnx. unfold bind. rewrite Hnx. simpl.
    unfold call, pure_fn. rewrite Hfx.
    destruct hi; simpl.
    + destruct cv; [reflexivity|]. exfalso. apply Hwf; reflexivity.
    + reflexivity.
  - change (passive y w2) with w2 in *.
    simpl in Hall. apply andb_prop in Hall. destruct Hall as [Hfy Hall].
    apply negb_true_iff in Hfy.
    destruct (IH s2 w2 x l2 up' w' Hrest Hall Hfx hi cv Hwf) as (up1 & w1 & Hev & Hd2).
    exists up1, w1. split; [|exact Hd2].
    eapply ev_S; [intros n; simpl; rewrite Hn; reflexivity|].
    eapply ev_bind; [exact Hx| |exact Hev].
    intros n Hnx. unfold bind. rewrite Hnx. simpl.
    unfold call, pure_fn. rewrite Hfy. reflexivity.
Qed.

(** A filter holding [x] over an upstream that yields [l2]. *)
Lemma Filter_buffered_drains :
  forall up1 w1 x l2 up' w',
    drains passive up1 w1 l2 up' w' ->
    exists fs',
      drains passive (fmk up1 (pure_fn f) true true (Some x)) w1
             (x :: filter f l2) fs' w'.
Proof.
  intros up1 w1 x l2 up' w' Hd.
  destruct (Filter_moveNext_loop_drains f up1 w1 l2 up' w' Hd true (Some x))
    as (fs2 & w3 & fs' & Hloop & Hrest & _); [discriminate|].
  exists fs'.
  eapply drains_cons; [reflexivity| |exact Hrest].
  eapply ev_bind; [exact Hloop| |apply ev_now; reflexivity].
  intros n Hnl. simpl. unfold FilterIterator.next, FilterIterator.moveNext, bind.
  simpl. unfold FilterIterator.set_hasValue. simpl. rewrite Hnl. reflexivity.
Qed.
End FilterLookahead.

Lemma Stream_filter_new {W TIt E : Type} `{Iterator W TIt E}
  (f : callable W E bool) (up : TIt) (w : W) fs w1 :
  eventually (fun n => FilterIterator.moveNext_loop n
                         {| FilterIterator.it := up; FilterIterator.lambda := f;
                            FilterIterator.hasValue := false;
                            FilterIterator.hasInit := false;
                            FilterIterator.currentValue := Detail.raw |} w)
             (Ok fs w1) ->
  eventually (fun n => Stream.filter n f {| iterator := up |} w)
             (Ok ({| iterator := fs |}, {| iterator := up |}) w1).
Proof.
  intros Hloop.
  eapply ev_bind; [exact Hloop| |apply ev_now; reflexivity].
  intros n Hn. unfold Stream.filter, FilterStream, FilterIterator.new,
    FilterIterator.moveNext, bind. simpl.
  unfold FilterIterator.set_hasValue. simpl. rewrite Hn. reflexivity.
Qed.

(** X11.  The constructor of a filter pulls from its upstream: up to and
    including the first element that satisfies the predicate, which it
    buffers ([hasNext] true), the upstream being left with the elements
    behind it; or, when no element satisfies it, to exhaustion ([hasNext]
    false from construction). *)
Theorem X11_filter_constructor_looks_ahead {W TIt E : Type} `{Iterator W TIt E}
  (f : E -> bool) (this : Stream TIt) (w : W) (l : list E) (s' : TIt) (w' : W) :
  drains passive (iterator this) w l s' w' ->
  (forallb (fun y => negb (f y)) l = true ->
   exists fs,
     eventually (fun n => Stream.filter n (pure_fn f) this w) (Ok (fs, this) w')
     /\ hasNext (iterator fs) = (false, iterator fs)
     /\ FilterIterator.it (iterator fs) = s')
  /\ (forall l1 x l2,
         l = l1 ++ x :: l2 ->
         forallb (fun y => negb (f y)) l1 = true -> f x = true ->
         exists fs w1,
           eventually (fun n => Stream.filter n (pure_fn f) this w) (Ok (fs, this) w1)
           /\ hasNext (iterator fs) = (true, iterator fs)
           /\ FilterIterator.currentValue (iterator fs) = Some x
           /\ drains passive (FilterIterator.it (iterator fs)) w1 l2 s' w').
Proof.
  intros Hd. destruct this as [up]. simpl in Hd. split.
  - intros Hall.
    eexists {| iterator := _ |}. split; [|split].
    + apply Stream_filter_new.
      exact (Filter_moveNext_loop_no_match f up w l s' w' Hd Hall false Detail.raw).
    + reflexivity.
    + reflexivity.
  - intros l1 x l2 Hl Hall Hfx. subst l.
    destruct (Filter_moveNext_loop_first_match f l1 up w x l2 s' w' Hd Hall Hfx
                false Detail.raw) as (up1 & w1 & Hev & Hrest); [discriminate|].
    eexists {| iterator := _ |}, w1. split; [|split; [|split]].
    + apply Stream_filter_new. exact Hev.
    + reflexivity.
    + reflexivity.
    + exact Hrest.
Qed.

Lemma X11_witness :
  (exists fs,
      eventually (fun n => Stream.filter n (pure_fn (fun x => 9 <? x))
                             (of_container [1; 2; 3]) tt)
                 (Ok (fs, of_container [1; 2; 3]) tt)
      /\ hasNext (iterator fs) = (false, iterator fs)
      /\ FilterIterator.it (iterator fs) = cursor_state [1; 2; 3] 3)
  /\ (exists fs w1,
        eventually (fun n => Stream.filter n (pure_fn (fun x => 1 <? x))
                               (of_container [1; 2; 3]) tt)
                   (Ok (fs, of_container [1; 2; 3]) w1)
        /\ hasNext (iterator fs) = (true, iterator fs)
        /\ FilterIterator.currentValue (iterator fs) = Some 2
        /\ drains passive (FilterIterator.it (iterator fs)) w1 [3]
                  (cursor_state [1; 2; 3] 3) tt).
Proof.
  split.
  - apply (X11_filter_constructor_looks_ahead (fun x => 9 <? x) (of_container [1; 2; 3])
             tt [1; 2; 3] (cursor_state [1; 2; 3] 3) tt
             (of_container_yields [1; 2; 3] tt)).
    reflexivity.
  - apply (X11_filter_constructor_looks_ahead (fun x => 1 <? x) (of_container [1; 2; 3])
             tt [1; 2; 3] (cursor_state [1; 2; 3] 3) tt
             (of_container_yields [1; 2; 3] tt))
      with (l1 := [1]); reflexivity.
Defined.

(** X12.  [estimateRemaining] of a filter over a range source counts the
    source elements behind the buffered one: it leaves the buffered
    element out, so the filter may yield one element more than it
    estimates. *)
Theorem X12_filter_estimate_misses_buffered {W T : Type}
  (f : T -> bool) (this : Stream (StreamIterator.t T)) (w : W)
  (l1 : list T) (x : T) (l2 : list T) (s' : StreamIterator.t T) (w' : W) :
  drains passive (iterator this) w (l1 ++ x :: l2) s' w' ->
  forallb (fun y => negb (f y)) l1 = true -> f x = true ->
  in_int (Z.of_nat (length l2)) ->
  exists fs w1 fs',
    eventually (fun n => Stream.filter n (pure_fn f) this w) (Ok (fs, this) w1)
    /\ fst (estimateRemaining (W := W) (iterator fs)) = Z.of_nat (length l2)
    /\ drains passive (iterator fs) w1 (x :: filter f l2) fs' w'.
Proof.
  intros Hd Hall Hfx Hlen. destruct this as [up]. simpl in Hd.
  destruct (Filter_moveNext_loop_first_match f l1 up w x l2 s' w' Hd Hall Hfx
              false Detail.raw) as (up1 & w1 & Hev & Hrest); [discriminate|].
  destruct (Filter_buffered_drains f up1 w1 x l2 s' w' Hrest) as [fs' Hfd].
  eexists {| iterator := _ |}, w1, fs'. split; [|split].
  - apply Stream_filter_new. exact Hev.
  - simpl. unfold FilterIterator.estimateRemaining. simpl.
    unfold StreamIterator.estimateRemaining.
    rewrite (StreamIterator_drains_length passive up1 w1 l2 s' w' Hrest).
    rewrite wrap_id by exact Hlen. reflexivity.
  - exact Hfd.
Qed.

Lemma X12_witness :
  exists fs w1 fs',
    eventually (fun n => Stream.filter n (pure_fn (fun x => 0 <? x))
                           (of_container [0; 1; 2; 3]) tt)
               (Ok (fs, of_container [0; 1; 2; 3]) w1)
    /\ fst (estimateRemaining (W := unit) (iterator fs)) = 2
    /\ drains passive (iterator fs) w1 [1; 2; 3] fs' tt.
Proof.
  apply (X12_filter_estimate_misses_buffered (fun x => 0 <? x)
           (of_container [0; 1; 2; 3]) tt [0] 1 [2; 3]
           (cursor_state [0; 1; 2; 3] 4) tt (of_container_yields [0; 1; 2; 3] tt)).
  - reflexivity.
  - reflexivity.
  - unfold in_int. simpl. lia.
Defined.

(** X13.  A Stream over any iterator of the library is consumed once: after
    it has been drained, every terminal operation on it returns at once
    with the result for an empty stream and changes nothing. *)
Theorem X13_drained_stream_stays_empty (W TIt E : Type) (I : Iterator W TIt E)
  (g : E -> W -> W) (s : TIt) (w : W) (l : list E) (s' : TIt) (w' : W) :
  library_iterator W TIt E I ->
  drains g s w l s' w' ->
  (forall A (body : E -> A -> M W A) n a w2,
      Stream.pull body (S n) a {| iterator := s' |} w2 = Ok (a, {| iterator := s' |}) w2)
  /\ (forall f n w2,
        Stream.allMatch f (S n) {| iterator := s' |} w2
        = Ok (true, {| iterator := s' |}) w2)
  /\ (forall f n w2,
        Stream.anyMatch f (S n) {| iterator := s' |} w2
        = Ok (false, {| iterator := s' |}) w2).
Proof.
  intros Hlib Hd.
  assert (Hh : hasNext s' = (false, s')).
  { destruct (drains_last g s w l s' w' Hd) as [s0 Hs0].
    pose proof (library_hasNext_pure W TIt E I Hlib s0) as Hp.
    rewrite Hs0 in Hp. simpl in Hp. subst s0. exact Hs0. }
  split; [|split]; intros; simpl; rewrite Hh; reflexivity.
Qed.

Lemma X13_witness :
  (forall A (body : Z -> A -> M unit A) n a w2,
      Stream.pull body (S n) a {| iterator := cursor_state [1; 2] 2 |} w2
      = Ok (a, {| iterator := cursor_state [1; 2] 2 |}) w2)
  /\ (forall f n (w2 : unit),
        Stream.allMatch f (S n) {| iterator := cursor_state [1; 2] 2 |} w2
        = Ok (true, {| iterator := cursor_state [1; 2] 2 |}) w2)
  /\ (forall f n (w2 : unit),
        Stream.anyMatch f (S n) {| iterator := cursor_state [1; 2] 2 |} w2
        = Ok (false, {| iterator := cursor_state [1; 2] 2 |}) w2).
Proof.
  exact (X13_drained_stream_stays_empty unit _ Z _ passive
           (iterator (of_container [1; 2])) tt [1; 2] (cursor_state [1; 2] 2) tt
           (lib_StreamIterator unit Z) (of_container_yields [1; 2] tt)).
Defined.

(** X14.  A [FilterIterator] made by its constructor, and every one that
    [next] leaves, has its [hasInit] flag in agreement with its storage,
    and its copy constructor returns an equal iterator without reading
    raw storage. *)
Theorem X14_filter_copy_faithful {W S A : Type} `{Iterator W S A} :
  (forall n (i : S) (l : callable W A bool) w s w',
      FilterIterator.new n i l w = Ok s w' ->
      Filter_consistent s /\ forall w2, FilterIterator.copy s w2 = Ok s w2)
  /\ (forall n (s : FilterIterator.t W S A) w x s' w',
        Filter_consistent s ->
        next n s w = Ok (x, s') w' ->
        Filter_consistent s' /\ forall w2, FilterIterator.copy s' w2 = Ok s' w2).
Proof.
  split.
  - intros n i l w s w' Hnew.
    pose proof (Filter_new_consistent n i l w s w' Hnew) as Hc.
    split; [exact Hc|]. intros w2. apply Filter_copy_consistent. exact Hc.
  - intros n s w x s' w' Hc Hnext.
    pose proof (Filter_next_consistent n s w x s' w' Hc Hnext) as Hc'.
    split; [exact Hc'|]. intros w2. apply Filter_copy_consistent. exact Hc'.
Qed.

Lemma X14_witness :
  match FilterIterator.new 5 (cursor_state [1; 2; 3] 0) (pure_fn (fun x => 1 <? x)) tt with
  | Ok s _ => Filter_consistent s /\ forall w2 : unit, FilterIterator.copy s w2 = Ok s w2
  | _ => False
  end
  /\ match next 5 {| FilterIterator.it := cursor_state [1; 2; 3] 2;
                     FilterIterator.lambda := pure_fn (fun x => 1 <? x);
                     FilterIterator.hasValue := true; FilterIterator.hasInit := true;
                     FilterIterator.currentValue := Some 2 |} tt with
     | Ok (_, s') _ =>
         Filter_consistent s' /\ forall w2 : unit, FilterIterator.copy s' w2 = Ok s' w2
     | _ => False
     end.
Proof.
  destruct (@X14_filter_copy_faithful unit (StreamIterator.t Z) Z
              (StreamIterator.iterator unit Z)) as [Hnew Hnext].
  split.
  - destruct (FilterIterator.new 5 (cursor_state [1; 2; 3] 0)
                (pure_fn (fun x => 1 <? x)) tt)
      as [s w| | |] eqn:Hs; try (vm_compute in Hs; discriminate Hs).
    exact (Hnew _ _ _ _ _ _ Hs).
  - destruct (next 5 _ tt) as [[x s'] w1| | |] eqn:Hn;
      try (vm_compute in Hn; discriminate Hn).
    refine (Hnext _ _ _ _ _ _ _ Hn). unfold Filter_consistent. simpl. discriminate.
Defined.

(** X15.  A [FlatMapIterator] made by its constructor, and every one that
    [next] leaves, has its [hasInnerIt] flag in agreement with its
    storage, and its copy constructor returns an equal iterator without
    reading raw storage. *)
Theorem X15_flatMap_copy_faithful {W S A TInnerIt B : Type}
  `{Iterator W S A} `{Iterator W TInnerIt B} :
  (forall n (i : S) (l : callable W A (Stream TInnerIt)) w s w',
      FlatMapIterator.new n i l w = Ok s w' ->
      FlatMap_consistent s /\ forall w2, FlatMapIterator.copy s w2 = Ok s w2)
  /\ (forall n (s : FlatMapIterator.t W S A TInnerIt) w x s' w',
        FlatMap_consistent s ->
        next n s w = Ok (x, s') w' ->
        FlatMap_consistent s' /\ forall w2, FlatMapIterator.copy s' w2 = Ok s' w2).
Proof.
  split.
  - intros n i l w s w' Hnew.
    pose proof (FlatMap_new_consistent n i l w s w' Hnew) as Hc.
    split; [exact Hc|]. intros w2. apply FlatMap_copy_consistent. exact Hc.
  - intros n s w x s' w' Hc Hnext.
    pose proof (FlatMap_next_consistent n s w x s' w' Hc Hnext) as Hc'.
    split; [exact Hc'|]. intros w2. apply FlatMap_copy_consistent. exact Hc'.
Qed.

Lemma X15_witness :
  match FlatMapIterator.new 5 (cursor_state [1; 2] 0)
          (pure_fn (fun x => of_container [x; x])) tt with
  | Ok s _ => FlatMap_consistent s /\ forall w2 : unit, FlatMapIterator.copy s w2 = Ok s w2
  | _ => False
  end
  /\ match next 5 {| FlatMapIterator.streamIt := cursor_state [1; 2] 1;
                     FlatMapIterator.lambda := pure_fn (fun x => of_container [x; x]);
                     FlatMapIterator.innerIt := Some (cursor_state [1; 1] 1);
                     FlatMapIterator.hasValue := true;
                     FlatMapIterator.hasInnerIt := true |} tt with
     | Ok (_, s') _ =>
         FlatMap_consistent s' /\ forall w2 : unit, FlatMapIterator.copy s' w2 = Ok s' w2
     | _ => False
     end.
Proof.
  destruct (@X15_flatMap_copy_faithful unit (StreamIterator.t Z) Z (StreamIterator.t Z) Z
              (StreamIterator.iterator unit Z) (StreamIterator.iterator unit Z))
    as [Hnew Hnext].
  split.
  - destruct (FlatMapIterator.new 5 (cursor_state [1; 2] 0)
                (pure_fn (fun x => of_container [x; x])) tt)
      as [s w| | |] eqn:Hs; try (vm_compute in Hs; discriminate Hs).
    exact (Hnew _ _ _ _ _ _ Hs).
  - destruct (next 5 _ tt) as [[x s'] w1| | |] eqn:Hn;
      try (vm_compute in Hn; discriminate Hn).
    refine (Hnext _ _ _ _ _ _ _ Hn). unfold FlatMap_consistent. simpl. discriminate.
Defined.

(** X16.  Over a source that yields [l], the chain
    [filter(f).map(g).limit(n)] yields the first n of the images under [g]
    of the elements of [l] that satisfy [f]. *)
Theorem X16_filter_map_limit_pipeline {W TIt E B : Type} `{Iterator W TIt E}
  (f : E -> bool) (g : E -> B) (n : int) (this : Stream TIt)
  (w : W) (l : list E) (s' : TIt) (w' : W) :
  in_int n ->
  drains passive (iterator this) w l s' w' ->
  exists fs w1 sf wf,
    eventually (fun k => Stream.filter k (pure_fn f) this w) (Ok (fs, this) w1)
    /\ drains passive
              (iterator (fst (Stream.limit n (fst (Stream.map (pure_fn g) fs))))) w1
              (firstn (Z.to_nat n) (map g (filter f l))) sf wf.
Proof.
  intros Hn Hd. destruct this as [up]. simpl in Hd.
  destruct (Filter_moveNext_loop_drains f up w l s' w' Hd false Detail.raw)
    as (fi & w1 & fs' & Hloop & Hfd & _); [discriminate|].
  pose proof (Map_drains g fi w1 (filter f l) fs' w' Hfd) as Hm.
  destruct (Limit_drains _ w1 _ _ w' Hm n 0) as (sf & wf & Hl); [lia|exact Hn|].
  rewrite Z.sub_0_r in Hl.
  exists {| iterator := fi |}, w1, sf, wf. split.
  - apply Stream_filter_new. exact Hloop.
  - exact Hl.
Qed.

Lemma X16_witness :
  exists fs w1 sf wf,
    eventually (fun k => Stream.filter k (pure_fn (fun x => 2 <? x))
                           (of_container [1; 2; 3; 4; 5]) tt)
               (Ok (fs, of_container [1; 2; 3; 4; 5]) w1)
    /\ drains passive
              (iterator (fst (Stream.limit 2
                                (fst (Stream.map (pure_fn (fun x => x * 10)) fs))))) w1
              [30; 40] sf wf.
Proof.
  refine (X16_filter_map_limit_pipeline (fun x => 2 <? x) (fun x => x * 10) 2
            (of_container [1; 2; 3; 4; 5]) tt [1; 2; 3; 4; 5]
            (cursor_state [1; 2; 3; 4; 5] 5) tt _
            (of_container_yields [1; 2; 3; 4; 5] tt)).
  unfold in_int. lia.
Defined.

(** ** flatMap over arrays built from the elements *)

Lemma flat_drains_pure {W TIt E B : Type} `{Iterator W TIt E} (g : E -> list B) :
  forall up w l up' w',
    drains passive up w l up' w' ->
    flat_drains (pure_fn (fun x => of_container (g x))) up w (map g l) up' w'.
Proof.
  intros up w l up' w' Hd.
  induction Hd as [s s' w Hn | s s1 w x s2 w2 l s3 w3 Hn Hx Hd IH].
  - apply flat_nil. exact Hn.
  - simpl map. eapply flat_cons; [exact Hn|exact Hx|reflexivity| |exact IH].
    apply of_container_yields.
Qed.

(** X17.  Over a source that yields [l], [flatMap] with a transform that
    turns each element into the stream over an array yields the arrays of
    the elements of [l] one after the other. *)
Theorem X17_flatMap_over_arrays {W TIt E B : Type} `{Iterator W TIt E}
  (g : E -> list B) (this : Stream TIt) (w : W) (l : list E) (s' : TIt) (w' : W) :
  drains passive (iterator this) w l s' w' ->
  exists fm w1 fs',
    eventually (fun n => Stream.flatMap n (pure_fn (fun x => of_container (g x))) this w)
               (Ok (fm, this) w1)
    /\ drains passive (iterator fm) w1 (flat_map g l) fs' w'.
Proof.
  intros Hd. destruct this as [up]. simpl in Hd.
  destruct (FlatMap_moveNext_loop_drains (pure_fn (fun x => of_container (g x)))
              up w (map g l) s' w' (flat_drains_pure g up w l s' w' Hd)
              Detail.raw false)
    as (fi & w1 & fs' & Hloop & Hfd & _); [discriminate|].
  exists {| iterator := fi |}, w1, fs'. split.
  - eapply ev_bind; [exact Hloop| |apply ev_now; reflexivity].
    intros n Hn. unfold Stream.flatMap, FlatMapStream, FlatMapIterator.new,
      FlatMapIterator.moveNext, bind. simpl.
    unfold FlatMapIterator.set_hasValue. simpl. rewrite Hn. reflexivity.
  - rewrite flat_map_concat_map. exact Hfd.
Qed.

Lemma X17_witness :
  exists fm w1 fs',
    eventually (fun n => Stream.flatMap n
                           (pure_fn (fun s => of_container (list_ascii_of_string s)))
                           (of_container ["ab"%string; "cde"%string]) tt)
               (Ok (fm, of_container ["ab"%string; "cde"%string]) w1)
    /\ drains passive (iterator fm) w1 ["a"; "b"; "c"; "d"; "e"]%char fs' tt.
Proof.
  exact (X17_flatMap_over_arrays list_ascii_of_string
           (of_container ["ab"%string; "cde"%string]) tt ["ab"%string; "cde"%string]
           (cursor_state ["ab"%string; "cde"%string] 2) tt
           (of_container_yields ["ab"%string; "cde"%string] tt)).
Defined.

(** X18.  The empty stream yields nothing, and its terminal operations
    return what they return without an element: [allMatch] true,
    [anyMatch] false, [count] 0, [reduce] its initial value,
    [emplaceInto] the container as it was. *)
Theorem X18_empty_stream (W T : Type) :
  (forall (g : T -> W -> W) (w : W),
      drains g (iterator (empty T)) w [] (iterator (empty T)) w)
  /\ (forall (f : callable W T bool) n w,
        Stream.allMatch f (S n) (empty T) w = Ok (true, empty T) w)
  /\ (forall (f : callable W T bool) n w,
        Stream.anyMatch f (S n) (empty T) w = Ok (false, empty T) w)
  /\ (forall n (w : W), Stream.count (S n) (empty T) w = Ok (0, empty T) w)
  /\ (forall V (f : T -> callable W V V) (initial : V) n w,
        Stream.reduce f initial (S n) (empty T) w = Ok (initial, empty T) w)
  /\ (forall (cont : list T) n (w : W),
        Stream.emplaceInto cont (S n) (empty T) w = Ok (cont, empty T) w).
Proof.
  split; [|split; [|split; [|split; [|split]]]]; intros; try reflexivity.
  apply drains_nil. reflexivity.
Qed.

(** ** Tap under a limit is called on the yielded elements only *)

Lemma limit_tap_array {W T : Type} (f : callable W T unit) (a : list T) (size : int) :
  in_int size ->
  forall (m b : nat) (idx : int) (w : W),
    m = (length a - b)%nat -> (b <= length a)%nat -> 0 <= idx ->
    exists sf,
      drains passive
             {| LimitIterator.it := {| TapIterator.it := cursor_state a b;
                                       TapIterator.lambda := by_value f |};
                LimitIterator.size := size; LimitIterator.idx := idx |} w
             (firstn (Z.to_nat (size - idx)) (skipn b a)) sf
             (fold_left (fun w x => effect_of f x w)
                        (firstn (Z.to_nat (size - idx)) (skipn b a)) w).
Proof.
  intros Hsize. induction m as [|m IH]; intros b idx w Hm Hb Hidx.
  - assert (b = length a) by lia. subst b. rewrite skipn_all, firstn_nil. simpl.
    destruct (Z.ltb_spec idx size) as [Hlt|Hge].
    + eexists. apply drains_nil. rewrite Limit_hasNext_below by (simpl; lia).
      simpl. unfold TapIterator.hasNext, StreamIterator.hasNext, ptr_neq. simpl.
      rewrite Z.eqb_refl. reflexivity.
    + eexists. apply drains_nil. apply Limit_hasNext_reached. simpl. lia.
  - destruct (skipn_nth_error a b) as [x [Hx Hs]]; [lia|].
    destruct (Z.ltb_spec idx size) as [Hlt|Hge].
    + replace (Z.to_nat (size - idx)) with (S (Z.to_nat (size - (idx + 1)))) by lia.
      rewrite Hs. simpl firstn. simpl fold_left.
      destruct (IH (S b) (idx + 1) (effect_of f x w)) as [sf Hrest]; [lia|lia|lia|].
      exists sf.
      eapply drains_cons; [| |exact Hrest].
      * rewrite Limit_hasNext_below by (simpl; lia).
        simpl. unfold TapIterator.hasNext, StreamIterator.hasNext, ptr_neq. simpl.
        destruct (Z.eqb_spec (Z.of_nat b) (Z.of_nat (length a))); [lia|reflexivity].
      * apply ev_now. intros n. simpl.
        unfold LimitIterator.next, bind. simpl.
        unfold TapIterator.next, bind. simpl.
        unfold StreamIterator.next, bind, deref, ptr_incr. simpl.
        destruct (Z.leb_spec 0 (Z.of_nat b)); [|lia].
        rewrite Nat2Z.id, Hx. unfold ret, call, by_value, effect_of.
        destruct (f x w) as [u w1]. simpl.
        rewrite wrap_id by (unfold in_int in *; lia).
        unfold LimitIterator.set_it, TapIterator.set_it, cursor_state. simpl.
        replace (Z.of_nat b + 1) with (Z.of_nat (S b)) by lia. reflexivity.
    + replace (Z.to_nat (size - idx)) with O by lia. simpl.
      eexists. apply drains_nil. apply Limit_hasNext_reached. simpl. lia.
Qed.

Lemma limit_tap_ref_array {W T : Type} (l : ref_callable W T) (a : list T) (size : int) :
  in_int size ->
  forall (m b : nat) (idx : int) (w : W),
    m = (length a - b)%nat -> (b <= length a)%nat -> 0 <= idx ->
    exists ys sf,
      drains passive
             {| LimitIterator.it := {| TapIterator.it := cursor_state a b;
                                       TapIterator.lambda := l |};
                LimitIterator.size := size; LimitIterator.idx := idx |} w
             ys sf
             (fold_left (fun w x => effect_of l x w)
                        (firstn (Z.to_nat (size - idx)) (skipn b a)) w)
      /\ length ys = length (firstn (Z.to_nat (size - idx)) (skipn b a)).
Proof.
  intros Hsize. induction m as [|m IH]; intros b idx w Hm Hb Hidx.
  - assert (b = length a) by lia. subst b. rewrite skipn_all, firstn_nil. simpl.
    destruct (Z.ltb_spec idx size) as [Hlt|Hge].
    + exists [], {| LimitIterator.it := {| TapIterator.it := cursor_state a (length a);
                                          TapIterator.lambda := l |};
                   LimitIterator.size := size; LimitIterator.idx := idx |}.
      split; [|reflexivity].
      apply drains_nil. rewrite Limit_hasNext_below by (simpl; lia).
      simpl. unfold TapIterator.hasNext, StreamIterator.hasNext, ptr_neq. simpl.
      rewrite Z.eqb_refl. reflexivity.
    + eexists [], _. split; [|reflexivity].
      apply drains_nil. apply Limit_hasNext_reached. simpl. lia.
  - destruct (skipn_nth_error a b) as [x [Hx Hs]]; [lia|].
    destruct (Z.ltb_spec idx size) as [Hlt|Hge].
    + replace (Z.to_nat (size - idx)) with (S (Z.to_nat (size - (idx + 1)))) by lia.
      rewrite Hs. simpl firstn. simpl fold_left.
      destruct (IH (S b) (idx + 1) (effect_of l x w)) as (ys & sf & Hrest & Hlen);
        [lia|lia|lia|].
      exists (fst (l x w) :: ys), sf. split; [|simpl; rewrite Hlen; reflexivity].
      eapply drains_cons; [| |exact Hrest].
      * rewrite Limit_hasNext_below by (simpl; lia).
        simpl. unfold TapIterator.hasNext, StreamIterator.hasNext, ptr_neq. simpl.
        destruct (Z.eqb_spec (Z.of_nat b) (Z.of_nat (length a))); [lia|reflexivity].
      * apply ev_now. intros n. simpl.
        unfold LimitIterator.next, bind. simpl.
        unfold TapIterator.next, bind. simpl.
        unfold StreamIterator.next, bind, deref, ptr_incr. simpl.
        destruct (Z.leb_spec 0 (Z.of_nat b)); [|lia].
        rewrite Nat2Z.id, Hx. unfold ret, call, effect_of.
        destruct (l x w) as [x' w1]. simpl.
        rewrite wrap_id by (unfold in_int in *; lia).
        unfold LimitIterator.set_it, TapIterator.set_it, cursor_state. simpl.
        replace (Z.of_nat b + 1) with (Z.of_nat (S b)) by lia. reflexivity.
    + replace (Z.to_nat (size - idx)) with O by lia. simpl.
      eexists [], _. split; [|reflexivity].
      apply drains_nil. apply Limit_hasNext_reached. simpl. lia.
Qed.

(** X19.  In [tap(f).limit(n)] over an array the side-effect function is
    called on the first n elements, one call for each element the stream
    yields, and on no element behind them, whatever the function is; when
    it does not assign to its argument the stream yields those first n
    elements. *)
Theorem X19_tap_under_limit_is_lazy {W T : Type} (f : callable W T unit)
  (a : list T) (n : int) (w : W) :
  in_int n ->
  (exists sf,
      drains passive
             (iterator (fst (Stream.limit n
                               (fst (Stream.tap (by_value f) (of_container a))))))
             w (firstn (Z.to_nat n) a) sf
             (fold_left (fun w x => effect_of f x w) (firstn (Z.to_nat n) a) w))
  /\ (forall l : ref_callable W T,
        exists ys sf,
          drains passive
                 (iterator (fst (Stream.limit n (fst (Stream.tap l (of_container a))))))
                 w ys sf
                 (fold_left (fun w x => effect_of l x w) (firstn (Z.to_nat n) a) w)
          /\ length ys = length (firstn (Z.to_nat n) a)).
Proof.
  intros Hn. split.
  - destruct (limit_tap_array f a n Hn (length a) O 0 w) as [sf Hd];
      [lia|lia|lia|].
    rewrite Z.sub_0_r in Hd. exists sf. exact Hd.
  - intros l.
    destruct (limit_tap_ref_array l a n Hn (length a) O 0 w) as (ys & sf & Hd & Hlen);
      [lia|lia|lia|].
    rewrite Z.sub_0_r in Hd, Hlen. exists ys, sf. split; [exact Hd|exact Hlen].
Qed.

(** X19, at a tap that logs the elements, under [limit(2)] over {4, 5, 6}. *)
Lemma X19_witness :
  exists sf,
    drains passive
           (iterator (fst (Stream.limit 2
                             (fst (Stream.tap (by_value (fun x log => (tt, log ++ [x])))
                                              (of_container [4; 5; 6]))))))
           [] [4; 5] sf [4; 5].
Proof.
  destruct (X19_tap_under_limit_is_lazy (fun x (log : list Z) => (tt, log ++ [x]))
              [4; 5; 6] 2 []) as [Hlazy _].
  - unfold in_int. lia.
  - exact Hlazy.
Defined.

(** ** [estimateRemaining] changes nothing *)

(** X20.  For every iterator of the library and every state of it,
    [estimateRemaining] leaves the iterator, its upstream chain included,
    as it was. *)
Theorem X20_estimateRemaining_pure (W TIt E : Type) (I : Iterator W TIt E) :
  library_iterator W TIt E I ->
  forall s : TIt, snd (estimateRemaining s) = s.
Proof.
  induction 1 as [T | T | S0 A B I HI IH | S0 A TInnerIt B I J HI IH
                 | S0 A I HI IH | S0 A I HI IH | S0 A I HI IH]; intros s.
  - reflexivity.
  - reflexivity.
  - simpl. unfold MapIterator.estimateRemaining.
    specialize (IH (MapIterator.it s)).
    destruct (estimateRemaining (MapIterator.it s)) as [r i]. simpl in *. subst i.
    destruct s; reflexivity.
  - simpl. unfold FlatMapIterator.estimateRemaining.
    specialize (IH (FlatMapIterator.streamIt s)).
    destruct (estimateRemaining (FlatMapIterator.streamIt s)) as [r i].
    simpl in *. subst i. destruct s; reflexivity.
  - simpl. unfold TapIterator.estimateRemaining.
    specialize (IH (TapIterator.it s)).
    destruct (estimateRemaining (TapIterator.it s)) as [r i]. simpl in *. subst i.
    destruct s; reflexivity.
  - simpl. unfold LimitIterator.estimateRemaining.
    specialize (IH (LimitIterator.it s)).
    destruct (estimateRemaining (LimitIterator.it s)) as [r i]. simpl in *. subst i.
    destruct s; reflexivity.
  - simpl. unfold FilterIterator.estimateRemaining.
    specialize (IH (FilterIterator.it s)).
    destruct (estimateRemaining (FilterIterator.it s)) as [r i]. simpl in *. subst i.
    destruct s; reflexivity.
Qed.

Lemma X20_witness :
  snd (estimateRemaining (W := unit) (LimitIterator.new (cursor_state [1; 2] 0) 5))
  = LimitIterator.new (cursor_state [1; 2] 0) 5.
Proof.
  apply (X20_estimateRemaining_pure unit _ Z _).
  apply lib_LimitIterator. apply lib_StreamIterator.
Defined.
